(** * dblogger: the database log handler and its storage models

    A shallow embedding of [dblogger/sync_models/model.py] (the
    load / create / get_or_create class methods of [SyncModel]) and of
    [dblogger/async_handler.py] (the [DBLogHandler] queue, its background
    emitter task and the per-record dimension resolution), followed by the
    properties of the persister established on it. *)

From stdpp Require Import gmap strings list pretty relations.
From Stdlib Require Import ZArith Lia.

Open Scope Z_scope.
Open Scope string_scope.
Open Scope list_scope.

(** ** Python values and exceptions *)

(** Values that travel as SQL parameters and as cells of a fetched row. *)
Inductive value :=
| VNone
| VBool (b : bool)
| VInt (z : Z)
| VStr (s : string).

Global Instance value_eq_dec : EqDecision value.
Proof. solve_decision. Defined.

(** Keyword arguments: a Python dict, ordered by insertion. *)
Abbreviation kwargs := (list (string * value)).

(** A row as the cursor hands it out. *)
Abbreviation rowdata := (list value).

(** The subclasses of Python's [Exception] that the code can meet.  All of
    them are caught by an [except Exception] clause. *)
Inductive exn :=
| UniqueViolation (table : string)
| DataError (msg : string)
| ConnectionFailure (msg : string)
| ProgrammingError (msg : string)
| TypeError (msg : string).

Global Instance exn_eq_dec : EqDecision exn.
Proof. solve_decision. Defined.

(** ** A state and exception monad

    A computation over a state [S] either returns a value or raises; the
    state it leaves behind is kept in both cases, as a raised Python
    exception does not undo earlier side effects. *)

Definition M (S A : Type) : Type := S → (exn + A) * S.

Global Instance M_ret {S} : MRet (M S) := λ A x s, (inr x, s).
Global Instance M_bind {S} : MBind (M S) := λ A B f m s,
  match m s with
  | (inl e, s') => (inl e, s')
  | (inr x, s') => f x s'
  end.

Definition raise {S A} (e : exn) : M S A := λ s, (inl e, s).
Definition gets {S A} (f : S → A) : M S A := λ s, (inr (f s), s).
Definition modify {S} (f : S → S) : M S unit := λ s, (inr tt, f s).

(** ** String helpers *)

(** The double quote character, and a newline. *)
Definition dq : string := String (Ascii.ascii_of_nat 34) EmptyString.
Definition nl : string := String (Ascii.ascii_of_nat 10) EmptyString.

(** [sep.join(l)] *)
Fixpoint join (sep : string) (l : list string) : string :=
  match l with
  | [] => ""
  | [x] => x
  | x :: l' => x +:+ sep +:+ join sep l'
  end.

Fixpoint spaces (n : nat) : string :=
  match n with
  | O => ""
  | S n' => " " +:+ spaces n'
  end.

Fixpoint is_prefix (p s : string) : bool :=
  match p, s with
  | EmptyString, _ => true
  | String a p', String b s' => bool_decide (a = b) && is_prefix p' s'
  | String _ _, EmptyString => false
  end.

(** [needle in hay] *)
Fixpoint contains (needle hay : string) : bool :=
  is_prefix needle hay ||
  match hay with
  | EmptyString => false
  | String _ hay' => contains needle hay'
  end.

(** ** sync_models/model.py *)

Module SyncModel.

(** What a concrete model class contributes.  [BaseModel] is imported from
    [dblogger.models.model]; its [serialize_data] and its constructor are
    taken as members of the class description. *)
Record cls (Obj : Type) := Cls {
  table : string;
  serialize_data : kwargs → kwargs;
  construct : option rowdata → exn + Obj  (* cls(rowdata=data) *)
}.
Arguments Cls {Obj}.
Arguments table {Obj}.
Arguments serialize_data {Obj}.
Arguments construct {Obj}.

Section Methods.
(** The cursor [db : Any] is duck typed: all the class methods use of it
    is [execute], [fetchone] and [fetchall]. *)
Context {DB : Type}.
Variable execute : string → list value → M DB unit.
Variable fetchone : M DB (option rowdata).
Variable fetchall : M DB (list rowdata).
(** [BaseModel.make_where_statement], a static method of the base class. *)
Variable make_where_statement : kwargs → string * list value.

Context {Obj : Type}.

Definition lift (r : exn + Obj) : M DB Obj :=
  match r with
  | inl e => raise e
  | inr o => mret o
  end.

Definition select_sql (c : cls Obj) (where_clause : string) : string :=
  "SELECT * FROM " +:+ table c +:+ " WHERE " +:+ where_clause +:+ ";".

Definition load (c : cls Obj) (kw : kwargs) : M DB (option Obj) :=
  let ser := serialize_data c kw in
  let '(where_clause, values) := make_where_statement ser in
  execute (select_sql c where_clause) values;;
  data ← fetchone;
  match data with
  | None => mret None
  | Some _ => o ← lift (construct c data); mret (Some o)
  end.

Fixpoint construct_all (c : cls Obj) (rows : list rowdata) : M DB (list Obj) :=
  match rows with
  | [] => mret []
  | data :: rows' =>
      o ← lift (construct c (Some data));
      os ← construct_all c rows';
      mret (o :: os)
  end.

Definition load_all (c : cls Obj) (kw : kwargs) : M DB (list Obj) :=
  let ser := serialize_data c kw in
  let '(where_clause, values) := make_where_statement ser in
  execute (select_sql c where_clause) values;;
  rows ← fetchall;
  construct_all c rows.

(** The statement text up to and including the [VALUES] line. *)
Definition insert_sql (c : cls Obj) (ser : kwargs) : string :=
  let value_list := (λ v, dq +:+ v +:+ dq) <$> ser.*1 in
  let params :=
    join ", " ((λ idx : nat, "$" +:+ pretty (idx + 1)%nat) <$> seq 0 (length ser.*2)) in
  nl +:+ spaces 12 +:+ "INSERT INTO " +:+ table c
     +:+ " (" +:+ join ", " value_list +:+ ")" +:+
  nl +:+ spaces 12 +:+ "VALUES (" +:+ params +:+ ")" +:+
  nl +:+ spaces 8.

Definition create_sql (c : cls Obj) (ignore_conflicts : bool) (ser : kwargs) : string :=
  let sql := insert_sql c ser in
  let sql := if ignore_conflicts then sql +:+ " ON CONFLICT DO NOTHING" else sql in
  sql +:+ " RETURNING *".

Definition create (c : cls Obj) (ignore_conflicts : bool) (kw : kwargs) : M DB Obj :=
  let ser := serialize_data c kw in
  let values := ser.*2 in
  execute (create_sql c ignore_conflicts ser) values;;
  data ← fetchone;
  lift (construct c data).

(** [cls.create(db, **kwargs)]: a keyword named [ignore_conflicts] binds
    the parameter of that name, every other keyword is collected; the
    test in [create] is [ignore_conflicts is True]. *)
Definition create_kw (c : cls Obj) (kw : kwargs) : M DB Obj :=
  create c
    (bool_decide ((list_to_map kw : gmap string value) !! "ignore_conflicts" = Some (VBool true)))
    (filter (λ kv, kv.1 ≠ "ignore_conflicts") kw).

Definition get_or_create (c : cls Obj) (kw : kwargs) : M DB Obj :=
  item ← load c kw;
  match item with
  | None => create_kw c kw
  | Some o => mret o
  end.

End Methods.

End SyncModel.

(** ** The log record and the rows of the dimension tables *)

(** [logging.LogRecord], with the attributes the handler reads.  [message]
    is what [record.getMessage()] returns, [created] the time stamp handed
    to [datetime.fromtimestamp]; [tags] is [None] when the record has no
    [tags] attribute at all, and otherwise lists the tag names in the order
    in which iterating the attribute yields them. *)
Module LogRecord.
Record t := mk {
  name : string;
  pathname : string;
  funcName : string;
  lineno : Z;
  levelno : Z;
  message : string;
  process : Z;
  created : Z;
  tags : option (list string)
}.
End LogRecord.

Global Instance LogRecord_eq_dec : EqDecision LogRecord.t.
Proof. solve_decision. Defined.

(** The model classes of [dblogger.async_models], as far as the handler
    reads their attributes: the primary key of each row and the path of a
    source row. *)
Module LogSource.
Record t := mk { pk : Z; path : string }.
End LogSource.

Module LogFunction.
Record t := mk { pk : Z; name : string; line_number : Z; source_id : Z }.
End LogFunction.

Module LogLogger.
Record t := mk { pk : Z; name : string }.
End LogLogger.

Module LogHost.
Record t := mk { pk : Z; name : string }.
End LogHost.

Module LogTag.
Record t := mk { pk : Z; name : string }.
End LogTag.

Module LogEntry.
Record t := mk {
  pk : Z;
  level : Z;
  message : string;
  pid : Z;
  time : Z;
  function_id : Z;
  logger_id : Z;
  hostname_id : Z
}.
End LogEntry.

(** ** What the handler calls outside itself

    [W] is the state of everything outside the handler (the database server
    and the host it runs on), [Pool] the connection handle that
    [asyncpg.connect] returns.  The awaited class methods of
    [dblogger.async_models] take the handle stored in [self.db], which is
    [None] before the first connect. *)
Class Storage (W Pool : Type) := {
  connect : string → M W Pool;
  gethostname : W → string;
  LogSource_get_or_create : option Pool → string → M W LogSource.t;
  LogFunction_get_or_create : option Pool → string → Z → Z → M W LogFunction.t;
  LogLogger_get_or_create : option Pool → string → M W LogLogger.t;
  LogHost_get_or_create : option Pool → string → M W LogHost.t;
  LogTag_get_or_create : option Pool → string → M W LogTag.t;
  LogEntry_create : option Pool → Z → string → Z → Z → Z → Z → Z → M W LogEntry.t;
  LogEntry_add_tags : LogEntry.t → option Pool → list LogTag.t → M W unit
}.

(** The calls that leave the handler, with their arguments. *)
Inductive Call :=
| CConnect (dsn : string)
| CSourceGetOrCreate (path : string)
| CFunctionGetOrCreate (name : string) (line_number source_id : Z)
| CLoggerGetOrCreate (name : string)
| CHostGetOrCreate (name : string)
| CTagGetOrCreate (name : string)
| CEntryCreate (level : Z) (message : string) (pid time : Z)
               (function_id logger_id hostname_id : Z)
| CAddTags (entry : Z) (tags : list Z).

Global Instance Call_eq_dec : EqDecision Call.
Proof. solve_decision. Defined.

(** The foreign keys handed to [LogEntry.create]. *)
Definition entry_ids (c : Call) : list Z :=
  match c with
  | CEntryCreate _ _ _ _ function_id logger_id hostname_id =>
      [function_id; logger_id; hostname_id]
  | _ => []
  end.

Definition is_tag_call (c : Call) : bool :=
  match c with
  | CTagGetOrCreate _ => true
  | _ => false
  end.

Definition is_get_or_create (c : Call) : bool :=
  match c with
  | CSourceGetOrCreate _ | CFunctionGetOrCreate _ _ _ | CLoggerGetOrCreate _
  | CHostGetOrCreate _ | CTagGetOrCreate _ => true
  | _ => false
  end.

Definition is_connect (c : Call) : bool :=
  match c with
  | CConnect _ => true
  | _ => false
  end.

(** The calls other than the connect and the creation of an entry. *)
Definition is_side_call (c : Call) : bool :=
  match c with
  | CConnect _ | CEntryCreate _ _ _ _ _ _ _ => false
  | _ => true
  end.

(** The columns of an entry that come from the record. *)
Definition entry_fields (c : Call) : option (Z * string * Z * Z) :=
  match c with
  | CEntryCreate level message pid time _ _ _ => Some (level, message, pid, time)
  | _ => None
  end.

Definition record_fields (record : LogRecord.t) : Z * string * Z * Z :=
  (LogRecord.levelno record, LogRecord.message record,
   LogRecord.process record, LogRecord.created record).

(** The entry that [create_entry] asks for on behalf of a record. *)
Definition entry_call (record : LogRecord.t) (function_id logger_id hostname_id : Z) : Call :=
  CEntryCreate (LogRecord.levelno record) (LogRecord.message record)
    (LogRecord.process record) (LogRecord.created record)
    function_id logger_id hostname_id.

(** One entry of the call log: which handler instance made the call and
    whether it returned ([true]) or raised ([false]). *)
Record Event := Ev { ev_self : nat; ev_call : Call; ev_ok : bool }.

Global Instance Event_eq_dec : EqDecision Event.
Proof. solve_decision. Defined.

(** Accesses to the two attributes that [emit] and [log_emitter] share,
    with the information whether the handler's lock was held. *)
Inductive Attr := AQueue | AEmitter.
Inductive Kind := ARead | AWrite.
Record Access := Acc { a_self : nat; a_attr : Attr; a_kind : Kind; a_locked : bool }.

Global Instance Attr_eq_dec : EqDecision Attr.
Proof. solve_decision. Defined.
Global Instance Kind_eq_dec : EqDecision Kind.
Proof. solve_decision. Defined.
Global Instance Access_eq_dec : EqDecision Access.
Proof. solve_decision. Defined.

(** ** async_handler.py

    The handler lives in an asyncio program.  [emit] is an ordinary method:
    it runs from [acquire] to [release] without a break, and is taken as one
    step, and as a step that can always be taken: the lock is re-entrant, so
    that on the thread of the event loop, where [asyncio.get_event_loop()]
    hands out the loop that runs the tasks, it is had at once even while a
    suspended [log_emitter] holds it.  [log_emitter] is a coroutine: what it
    does is cut into steps at its awaits and at its accesses to [queue] and
    [emitter] outside the lock, and between two steps anything else may
    happen; of these interleavings a single thread shows those at the
    awaits, pushes from further threads the others as well.  The class
    attributes that are containers ([queue] and the five caches) are objects
    shared by all instances, and are kept apart from the attributes that an
    instance binds for itself. *)

(** The list a running [for record in q] walks over.  [q] is either the
    list object bound to the class attribute [DBLogHandler.queue], which
    every instance that has not yet rebound its own [queue] still appends
    to, so that the walk is by index into the live list; or a list that was
    bound to the instance attribute, to which nothing else refers once
    [self.queue = []] has run. *)
Inductive Batch :=
| BShared (i : nat)
| BOwn (rest : list LogRecord.t).

(** Where a [log_emitter] coroutine stands. *)
Inductive PC :=
| AtStart                (* line 67: if self.db is None *)
| AtWhile                (* line 74: while len(self.queue) > 0 *)
| AtSwap                 (* lines 75-78: the locked exchange *)
| AtFor (q : Batch)      (* lines 80-81: for record in q *)
| AtClear                (* line 83: self.emitter = None *)
| Returned
| Raised (e : exn).

(** A task of the event loop, created by [loop.create_task(self.log_emitter())]. *)
Record Task := mkTask { owner : nat; pc : PC }.

Definition live (t : Task) : bool :=
  match pc t with
  | Returned | Raised _ => false
  | _ => true
  end.

Definition is_inr {A B} (r : A + B) : bool :=
  match r with inr _ => true | inl _ => false end.

Module DBLogHandler.

Section Handler.
Context {W Pool : Type}.

(** The attributes of one instance.  [queue] is [None] as long as the
    instance has no attribute of that name of its own, so that [self.queue]
    finds the class attribute; [db] and [emitter] have the immutable class
    default [None]; [lock] is the recursion depth of the re-entrant lock
    made by [createLock], and [level] what [Handler.__init__] is given. *)
Record Handler := mkHandler {
  db : option Pool;
  db_config : string;
  logger_name : string;
  queue : option (list LogRecord.t);
  emitter : option nat;
  lock : nat;
  level : Z
}.

(** The class attributes that are mutable containers (one list and five
    dicts, shared by all instances), the instances, the tasks of the event
    loop, the outside world, and three logs: the calls made, the records
    handed to [handleError], and the accesses to [queue] and [emitter]. *)
Record State := mkState {
  cls_queue : list LogRecord.t;
  src_cache : gmap string LogSource.t;
  func_cache : gmap string LogFunction.t;
  logger_cache : gmap string LogLogger.t;
  host_cache : gmap string LogHost.t;
  tag_cache : gmap string LogTag.t;
  handlers : list Handler;
  tasks : list Task;
  world : W;
  calls : list Event;
  reported : list (nat * LogRecord.t);
  accesses : list Access
}.

Definition set_db (v : option Pool) (h : Handler) : Handler :=
  mkHandler v (db_config h) (logger_name h) (queue h) (emitter h) (lock h) (level h).
Definition set_queue (v : option (list LogRecord.t)) (h : Handler) : Handler :=
  mkHandler (db h) (db_config h) (logger_name h) v (emitter h) (lock h) (level h).
Definition set_emitter (v : option nat) (h : Handler) : Handler :=
  mkHandler (db h) (db_config h) (logger_name h) (queue h) v (lock h) (level h).
Definition set_lock (v : nat) (h : Handler) : Handler :=
  mkHandler (db h) (db_config h) (logger_name h) (queue h) (emitter h) v (level h).

Definition set_cls_queue (f : list LogRecord.t → list LogRecord.t) (s : State) : State :=
  mkState (f (cls_queue s)) (src_cache s) (func_cache s) (logger_cache s) (host_cache s)
    (tag_cache s) (handlers s) (tasks s) (world s) (calls s) (reported s) (accesses s).
Definition set_src_cache (f : gmap string LogSource.t → gmap string LogSource.t) (s : State) : State :=
  mkState (cls_queue s) (f (src_cache s)) (func_cache s) (logger_cache s) (host_cache s)
    (tag_cache s) (handlers s) (tasks s) (world s) (calls s) (reported s) (accesses s).
Definition set_func_cache (f : gmap string LogFunction.t → gmap string LogFunction.t) (s : State) : State :=
  mkState (cls_queue s) (src_cache s) (f (func_cache s)) (logger_cache s) (host_cache s)
    (tag_cache s) (handlers s) (tasks s) (world s) (calls s) (reported s) (accesses s).
Definition set_logger_cache (f : gmap string LogLogger.t → gmap string LogLogger.t) (s : State) : State :=
  mkState (cls_queue s) (src_cache s) (func_cache s) (f (logger_cache s)) (host_cache s)
    (tag_cache s) (handlers s) (tasks s) (world s) (calls s) (reported s) (accesses s).
Definition set_host_cache (f : gmap string LogHost.t → gmap string LogHost.t) (s : State) : State :=
  mkState (cls_queue s) (src_cache s) (func_cache s) (logger_cache s) (f (host_cache s))
    (tag_cache s) (handlers s) (tasks s) (world s) (calls s) (reported s) (accesses s).
Definition set_tag_cache (f : gmap string LogTag.t → gmap string LogTag.t) (s : State) : State :=
  mkState (cls_queue s) (src_cache s) (func_cache s) (logger_cache s) (host_cache s)
    (f (tag_cache s)) (handlers s) (tasks s) (world s) (calls s) (reported s) (accesses s).
Definition set_handlers (f : list Handler → list Handler) (s : State) : State :=
  mkState (cls_queue s) (src_cache s) (func_cache s) (logger_cache s) (host_cache s)
    (tag_cache s) (f (handlers s)) (tasks s) (world s) (calls s) (reported s) (accesses s).
Definition set_tasks (f : list Task → list Task) (s : State) : State :=
  mkState (cls_queue s) (src_cache s) (func_cache s) (logger_cache s) (host_cache s)
    (tag_cache s) (handlers s) (f (tasks s)) (world s) (calls s) (reported s) (accesses s).
Definition set_world (w : W) (s : State) : State :=
  mkState (cls_queue s) (src_cache s) (func_cache s) (logger_cache s) (host_cache s)
    (tag_cache s) (handlers s) (tasks s) w (calls s) (reported s) (accesses s).
Definition set_calls (f : list Event → list Event) (s : State) : State :=
  mkState (cls_queue s) (src_cache s) (func_cache s) (logger_cache s) (host_cache s)
    (tag_cache s) (handlers s) (tasks s) (world s) (f (calls s)) (reported s) (accesses s).
Definition set_reported (f : list (nat * LogRecord.t) → list (nat * LogRecord.t)) (s : State) : State :=
  mkState (cls_queue s) (src_cache s) (func_cache s) (logger_cache s) (host_cache s)
    (tag_cache s) (handlers s) (tasks s) (world s) (calls s) (f (reported s)) (accesses s).
Definition set_accesses (f : list Access → list Access) (s : State) : State :=
  mkState (cls_queue s) (src_cache s) (func_cache s) (logger_cache s) (host_cache s)
    (tag_cache s) (handlers s) (tasks s) (world s) (calls s) (reported s) (f (accesses s)).

(** The process before any handler is made: the class body has run. *)
Definition initial (w : W) : State :=
  mkState [] ∅ ∅ ∅ ∅ ∅ [] [] w [] [] [].

(** *** Attribute lookup on [self] *)

Definition self_db (self : nat) (s : State) : option Pool :=
  h ← handlers s !! self; db h.

Definition self_db_config (self : nat) (s : State) : string :=
  default "" (db_config <$> handlers s !! self).

Definition self_logger_name (self : nat) (s : State) : string :=
  default "" (logger_name <$> handlers s !! self).

Definition self_emitter (self : nat) (s : State) : option nat :=
  h ← handlers s !! self; emitter h.

(** [self.queue]: the instance attribute if there is one, else the class
    attribute. *)
Definition self_queue (self : nat) (s : State) : list LogRecord.t :=
  match handlers s !! self ≫= queue with
  | Some q => q
  | None => cls_queue s
  end.

Definition self_locked (self : nat) (s : State) : bool :=
  match handlers s !! self with
  | Some h => bool_decide (0 < lock h)%nat
  | None => false
  end.

Definition upd_self (self : nat) (f : Handler → Handler) (s : State) : State :=
  set_handlers (alter f self) s.

Definition acquire (self : nat) (s : State) : State :=
  upd_self self (λ h, set_lock (S (lock h)) h) s.

Definition release (self : nat) (s : State) : State :=
  upd_self self (λ h, set_lock (pred (lock h)) h) s.

Definition touch (self : nat) (a : Attr) (k : Kind) (s : State) : State :=
  set_accesses (λ l, l ++ [Acc self a k (self_locked self s)]) s.

(** *** [__init__] *)

Definition make_db_config (db_name : string) (db_user db_password : option string)
    (db_host : string) (db_port : Z) : string :=
  match db_user with
  | Some user =>
      match db_password with
      | Some password =>
          "postgresql://" +:+ user +:+ ":" +:+ password +:+ "@" +:+ db_host +:+ ":"
            +:+ pretty db_port +:+ "/" +:+ db_name
      | None =>
          "postgresql://" +:+ user +:+ "@" +:+ db_host +:+ ":"
            +:+ pretty db_port +:+ "/" +:+ db_name
      end
  | None =>
      "postgresql://" +:+ db_host +:+ ":" +:+ pretty db_port +:+ "/" +:+ db_name
  end.

(** A new instance: [db_config] and [logger_name] are assigned, the lock is
    created, [db], [queue] and [emitter] are left to the class. *)
Definition init (name db_name : string) (db_user db_password : option string)
    (db_host : string) (db_port : Z) (level : Z) (s : State) : State :=
  set_handlers
    (λ hs, hs ++ [mkHandler None (make_db_config db_name db_user db_password db_host db_port)
                    name None None 0 level])
    s.

(** *** [emit] *)

(** [self.queue.append(record)] mutates the list object that [self.queue]
    finds. *)
Definition queue_append (self : nat) (record : LogRecord.t) (s : State) : State :=
  match handlers s !! self ≫= queue with
  | Some q => upd_self self (set_queue (Some (q ++ [record]))) s
  | None => set_cls_queue (λ q, q ++ [record]) s
  end.

(** [loop.create_task(self.log_emitter())]: the coroutine is scheduled, it
    does not start to run inside [emit]. *)
Definition create_task (self : nat) (s : State) : nat * State :=
  (length (tasks s), set_tasks (λ ts, ts ++ [mkTask self AtStart]) s).

Definition emit (self : nat) (record : LogRecord.t) (s : State) : State :=
  match handlers s !! self with
  | None => s
  | Some _ =>
      let s := acquire self s in
      let s := queue_append self record (touch self AQueue AWrite s) in
      let s := touch self AEmitter ARead s in
      let s :=
        match self_emitter self s with
        | None =>
            let '(t, s) := create_task self s in
            upd_self self (set_emitter (Some t)) (touch self AEmitter AWrite s)
        | Some _ => s
        end in
      release self s
  end.

(** *** [async_emit] *)

Context `{!Storage W Pool}.

(** An awaited call out of the handler: it runs on the outside world and
    is entered into the call log with its outcome. *)
Definition call {A} (self : nat) (c : Call) (op : M W A) : M State A := λ s,
  let '(r, w) := op (world s) in
  (r, set_calls (λ l, l ++ [Ev self c (is_inr r)]) (set_world w s)).

(** Lines 87-90. *)
Definition resolve_source (self : nat) (record : LogRecord.t) : M State LogSource.t :=
  cache ← gets src_cache;
  match cache !! LogRecord.pathname record with
  | Some src => mret src
  | None =>
      db ← gets (self_db self);
      src ← call self (CSourceGetOrCreate (LogRecord.pathname record))
               (LogSource_get_or_create db (LogRecord.pathname record));
      modify (set_src_cache (<[LogRecord.pathname record := src]>));;
      mret src
  end.

(** Line 92. *)
Definition func_key (record : LogRecord.t) (src : LogSource.t) : string :=
  LogRecord.name record +:+ "." +:+ LogRecord.funcName record +:+ ":"
    +:+ pretty (LogRecord.lineno record) +:+ "@" +:+ LogSource.path src.

(** Lines 93-101. *)
Definition resolve_function (self : nat) (record : LogRecord.t) (src : LogSource.t)
    : M State LogFunction.t :=
  cache ← gets func_cache;
  match cache !! func_key record src with
  | Some func => mret func
  | None =>
      db ← gets (self_db self);
      let name := LogRecord.name record +:+ "." +:+ LogRecord.funcName record in
      func ← call self (CFunctionGetOrCreate name (LogRecord.lineno record) (LogSource.pk src))
                (LogFunction_get_or_create db name (LogRecord.lineno record) (LogSource.pk src));
      modify (set_func_cache (<[func_key record src := func]>));;
      mret func
  end.

(** Lines 103-106. *)
Definition resolve_logger (self : nat) : M State LogLogger.t :=
  cache ← gets logger_cache;
  logger_name ← gets (self_logger_name self);
  match cache !! logger_name with
  | Some logger => mret logger
  | None =>
      db ← gets (self_db self);
      logger ← call self (CLoggerGetOrCreate logger_name) (LogLogger_get_or_create db logger_name);
      modify (set_logger_cache (<[logger_name := logger]>));;
      mret logger
  end.

(** Lines 108-112. *)
Definition resolve_host (self : nat) : M State LogHost.t :=
  host_key ← gets (λ s, gethostname (world s));
  cache ← gets host_cache;
  match cache !! host_key with
  | Some host => mret host
  | None =>
      db ← gets (self_db self);
      host ← call self (CHostGetOrCreate host_key) (LogHost_get_or_create db host_key);
      modify (set_host_cache (<[host_key := host]>));;
      mret host
  end.

(** Lines 128-131. *)
Definition resolve_tag (self : nat) (tag_name : string) : M State LogTag.t :=
  cache ← gets tag_cache;
  match cache !! tag_name with
  | Some tag => mret tag
  | None =>
      db ← gets (self_db self);
      tag ← call self (CTagGetOrCreate tag_name) (LogTag_get_or_create db tag_name);
      modify (set_tag_cache (<[tag_name := tag]>));;
      mret tag
  end.

(** Lines 126-133: the loop over [tags_names], appending to [tags]. *)
Fixpoint resolve_tags (self : nat) (tags_names : list string) (tags : list LogTag.t)
    : M State (list LogTag.t) :=
  match tags_names with
  | [] => mret tags
  | tag_name :: rest =>
      tag ← resolve_tag self tag_name;
      resolve_tags self rest (tags ++ [tag])
  end.

(** Lines 114-123. *)
Definition create_entry (self : nat) (record : LogRecord.t)
    (func : LogFunction.t) (logger : LogLogger.t) (host : LogHost.t) : M State LogEntry.t :=
  db ← gets (self_db self);
  call self
    (CEntryCreate (LogRecord.levelno record) (LogRecord.message record)
       (LogRecord.process record) (LogRecord.created record)
       (LogFunction.pk func) (LogLogger.pk logger) (LogHost.pk host))
    (LogEntry_create db (LogRecord.levelno record) (LogRecord.message record)
       (LogRecord.process record) (LogRecord.created record)
       (LogFunction.pk func) (LogLogger.pk logger) (LogHost.pk host)).

(** Line 135. *)
Definition add_tags (self : nat) (entry : LogEntry.t) (tags : list LogTag.t) : M State unit :=
  db ← gets (self_db self);
  call self (CAddTags (LogEntry.pk entry) (LogTag.pk <$> tags))
    (LogEntry_add_tags entry db tags).

(** The body of the [try], lines 87-135. *)
Definition async_emit_try (self : nat) (record : LogRecord.t) : M State unit :=
  src ← resolve_source self record;
  func ← resolve_function self record src;
  logger ← resolve_logger self;
  host ← resolve_host self;
  entry ← create_entry self record func logger host;
  let tags_names := default [] (LogRecord.tags record) in
  tags ← resolve_tags self tags_names [];
  add_tags self entry tags.

(** [Handler.handleError] of the logging package: the record is reported,
    nothing is raised. *)
Definition handleError (self : nat) (record : LogRecord.t) (s : State) : State :=
  set_reported (λ l, l ++ [(self, record)]) s.

Definition async_emit (self : nat) (record : LogRecord.t) (s : State) : State :=
  match async_emit_try self record s with
  | (inr _, s') => s'
  | (inl _, s') => handleError self record s'
  end.

(** Lines 80-81 on a list nothing else appends to. *)
Definition for_records (self : nat) (q : list LogRecord.t) (s : State) : State :=
  foldl (λ s record, async_emit self record s) s q.

(** *** [log_emitter] *)

Definition set_pc (tid : nat) (p : PC) (s : State) : State :=
  set_tasks (alter (λ t, mkTask (owner t) p) tid) s.

(** One step of the coroutine [tid].  The steps are the stretches of
    [log_emitter] between two points where the attributes [queue] and
    [emitter] are read or written outside the lock; the awaited calls of
    one record are taken in one step, as [emit] touches neither the caches
    nor the outside world.  The test [self.db_config is None] of line 68
    never holds, [__init__] always assigning a string.  When the connect
    raises, line 72 is not reached and the lock stays taken. *)
Definition log_emitter_step (tid : nat) (s : State) : State :=
  match tasks s !! tid with
  | None => s
  | Some t =>
      let self := owner t in
      match pc t with
      | AtStart =>
          match self_db self s with
          | Some _ => set_pc tid AtWhile s
          | None =>
              let s := acquire self s in
              match call self (CConnect (self_db_config self s))
                      (connect (self_db_config self s)) s with
              | (inl e, s') => set_pc tid (Raised e) s'
              | (inr pool, s') =>
                  set_pc tid AtWhile (release self (upd_self self (set_db (Some pool)) s'))
              end
          end
      | AtWhile =>
          let s := touch self AQueue ARead s in
          if bool_decide (0 < length (self_queue self s))%nat
          then set_pc tid AtSwap s
          else set_pc tid AtClear s
      | AtSwap =>
          let s := acquire self s in
          let s := touch self AQueue ARead s in
          let q :=
            match handlers s !! self ≫= queue with
            | Some l => BOwn l
            | None => BShared 0
            end in
          let s := upd_self self (set_queue (Some [])) (touch self AQueue AWrite s) in
          let s := release self s in
          set_pc tid (AtFor q) s
      | AtFor (BOwn []) => set_pc tid AtWhile s
      | AtFor (BOwn (record :: rest)) =>
          set_pc tid (AtFor (BOwn rest)) (async_emit self record s)
      | AtFor (BShared i) =>
          match cls_queue s !! i with
          | None => set_pc tid AtWhile s
          | Some record => set_pc tid (AtFor (BShared (S i))) (async_emit self record s)
          end
      | AtClear =>
          set_pc tid Returned (upd_self self (set_emitter None) (touch self AEmitter AWrite s))
      | Returned | Raised _ => s
      end
  end.

(** The coroutine [tid] run until it returns or raises, with nothing else
    running in between. *)
Fixpoint run_task (fuel : nat) (tid : nat) (s : State) : State :=
  match fuel with
  | O => s
  | S fuel' =>
      match live <$> tasks s !! tid with
      | Some true => run_task fuel' tid (log_emitter_step tid s)
      | _ => s
      end
  end.

(** *** The process

    What can happen next: a handler is made, a record is handed to some
    handler, some task of the event loop advances, or the outside world
    changes under the hands of others. *)
Inductive step : State → State → Prop :=
| step_init name db_name db_user db_password db_host db_port level s :
    step s (init name db_name db_user db_password db_host db_port level s)
| step_emit self record s :
    step s (emit self record s)
| step_task tid s :
    step s (log_emitter_step tid s)
| step_world w s :
    step s (set_world w s).

Definition reachable (s : State) : Prop := ∃ w, rtc step (initial w) s.

(** The live [log_emitter] tasks of one handler. *)
Definition live_tasks (self : nat) (s : State) : list Task :=
  filter (λ t, owner t = self ∧ live t = true) (tasks s).


(** *** Vocabulary for the properties *)

(** What the awaited calls made for one record by the handler [self] may
    change: the outside world, the call log, which grows by calls of
    [self], and the caches, which keep every entry they have. *)
Record frame (self : nat) (s s' : State) : Prop := Frame {
  frame_cls_queue : cls_queue s' = cls_queue s;
  frame_handlers : handlers s' = handlers s;
  frame_tasks : tasks s' = tasks s;
  frame_accesses : accesses s' = accesses s;
  frame_reported : reported s' = reported s;
  frame_calls : ∃ evs, calls s' = calls s ++ evs ∧ Forall (λ e, ev_self e = self) evs;
  frame_src_cache : src_cache s ⊆ src_cache s';
  frame_func_cache : func_cache s ⊆ func_cache s';
  frame_logger_cache : logger_cache s ⊆ logger_cache s';
  frame_host_cache : host_cache s ⊆ host_cache s';
  frame_tag_cache : tag_cache s ⊆ tag_cache s'
}.

(** The caches only grow. *)
Definition caches_kept (s s' : State) : Prop :=
  src_cache s ⊆ src_cache s' ∧ func_cache s ⊆ func_cache s' ∧
  logger_cache s ⊆ logger_cache s' ∧ host_cache s ⊆ host_cache s' ∧
  tag_cache s ⊆ tag_cache s'.

(** At most one live [log_emitter] task per handler, and none unless the
    handler's [emitter] attribute is set. *)
Definition single_flight (s : State) : Prop :=
  ∀ self,
    (length (live_tasks self s) ≤ match self_emitter self s with Some _ => 1 | None => 0 end)%nat.


(** A run of pushes on one handler with nothing in between. *)
Definition emits (self : nat) (records : list LogRecord.t) (s : State) : State :=
  foldl (λ s record, emit self record s) s records.

(** Nothing was done about tags between [s] and [s']. *)
Definition no_tag_work (s s' : State) : Prop :=
  tag_cache s' = tag_cache s ∧
  ∃ evs, calls s' = calls s ++ evs ∧ Forall (λ e, is_tag_call (ev_call e) = false) evs.





(** *** Vocabulary for further properties *)

(** The entries that the storage has created, in the order of their
    creation: the columns taken from the record, for each call of
    [LogEntry.create] that returned. *)
Definition created_entries (s : State) : list (Z * string * Z * Z) :=
  omap (λ e, if ev_ok e then entry_fields (ev_call e) else None) (calls s).

(** The connects of one handler that returned. *)
Definition connects (self : nat) (s : State) : list Event :=
  filter (λ e, ev_self e = self ∧ is_connect (ev_call e) = true ∧ ev_ok e = true) (calls s).

(** What stays of an instance: its name, its connection string and its
    level; its connection once it has one; and a queue of its own once it
    has one. *)
Definition kept (h h' : Handler) : Prop :=
  logger_name h' = logger_name h ∧ db_config h' = db_config h ∧ level h' = level h ∧
  (∀ pool, db h = Some pool → db h' = Some pool) ∧
  (is_Some (queue h) → is_Some (queue h')).

(** Between [s] and [s'] the handler [self] has made calls, none of
    them a connect or the creation of an entry, and nothing else has been
    entered in the call log. *)
Definition side_calls (self : nat) (s s' : State) : Prop :=
  ∃ evs, calls s' = calls s ++ evs ∧
         Forall (λ e, ev_self e = self ∧ is_side_call (ev_call e) = true) evs.

(** Every instance is still there, with what is kept of it. *)
Definition all_kept (l l' : list Handler) : Prop :=
  ∀ i h, l !! i = Some h → ∃ h', l' !! i = Some h' ∧ kept h h'.

(** The tasks belong to instances that exist, and a handler has a
    connection exactly if one connect of its own has returned. *)
Definition connected_once (s : State) : Prop :=
  Forall (λ t, (owner t < length (handlers s))%nat) (tasks s) ∧
  ∀ self,
    length (connects self s) = match self_db self s with Some _ => 1%nat | None => 0%nat end.

(** Two states that the awaited calls of [async_emit] cannot tell apart:
    the same outside world, call log, reported records and caches, and for
    every handler the same connection and the same name.  The queues, the
    [emitter] attributes, the locks, the tasks and the access log may
    differ. *)
Definition same_outside (s1 s2 : State) : Prop :=
  world s1 = world s2 ∧ calls s1 = calls s2 ∧ reported s1 = reported s2 ∧
  src_cache s1 = src_cache s2 ∧ func_cache s1 = func_cache s2 ∧
  logger_cache s1 = logger_cache s2 ∧ host_cache s1 = host_cache s2 ∧
  tag_cache s1 = tag_cache s2 ∧
  ∀ self, self_db self s1 = self_db self s2 ∧
          self_logger_name self s1 = self_logger_name self s2.

(** A computation that gives the same result, and states that cannot be
    told apart, on states that cannot be told apart. *)
Definition respects {A} (m : M State A) : Prop :=
  ∀ s1 s2, same_outside s1 s2 → (m s1).1 = (m s2).1 ∧ same_outside (m s1).2 (m s2).2.

(** A computation that neither reads nor writes the tasks. *)
Definition tasks_blind {A} (m : M State A) : Prop :=
  ∀ f s, m (set_tasks f s) = (let '(r, s') := m s in (r, set_tasks f s')).

End Handler.
End DBLogHandler.

(** ** Two small backends to run the code on

    [Pg] is a cursor on one table with a uniqueness constraint over all
    columns but the primary key, on a server that other sessions write to
    as well; [Mem] is a storage for the handler kept in memory. *)

Module Pg.

(** [rows] is the table, [cursor] the result set of the last statement,
    and [rivals] the rows that other sessions commit: the head of the list
    just before the next statement of this session is executed, and so
    on. *)
Record db := mk {
  rows : list rowdata;
  cursor : list rowdata;
  rivals : list (list rowdata);
  next_pk : Z
}.

Definition commit_rivals (d : db) : db :=
  mk (rows d ++ hd [] (rivals d)) (cursor d) (tl (rivals d)) (next_pk d).

Definition matches (values : list value) (row : rowdata) : bool :=
  bool_decide (tl row = values).

Definition execute (sql : string) (values : list value) : M db unit := λ d,
  let d := commit_rivals d in
  if is_prefix "SELECT" sql then
    (inr tt, mk (rows d) (filter (λ row, matches values row = true) (rows d)) (rivals d) (next_pk d))
  else if contains "INSERT INTO" sql then
    if existsb (matches values) (rows d) then
      if contains "ON CONFLICT DO NOTHING" sql
      then (inr tt, mk (rows d) [] (rivals d) (next_pk d))
      else (inl (UniqueViolation "duplicate key value violates unique constraint"), d)
    else
      let row := VInt (next_pk d) :: values in
      (inr tt, mk (rows d ++ [row]) [row] (rivals d) (next_pk d + 1))
  else (inl (ProgrammingError "syntax error"), d).

Definition fetchone : M db (option rowdata) := λ d,
  match cursor d with
  | [] => (inr None, d)
  | row :: rest => (inr (Some row), mk (rows d) rest (rivals d) (next_pk d))
  end.

Definition fetchall : M db (list rowdata) := λ d,
  (inr (cursor d), mk (rows d) [] (rivals d) (next_pk d)).

(** A where clause that compares every column given. *)
Definition make_where_statement (ser : kwargs) : string * list value :=
  (join " AND "
     ((λ p : nat * string, dq +:+ p.2 +:+ dq +:+ " = $" +:+ pretty (p.1 + 1)%nat)
        <$> zip (seq 0 (length ser)) ser.*1),
   ser.*2).

(** The host table: rows are a key and a name. *)
Definition LogHost_cls : SyncModel.cls LogHost.t :=
  SyncModel.Cls "logger_host" (λ kw, kw)
    (λ data,
       match data with
       | Some [VInt pk; VStr name] => inr (LogHost.mk pk name)
       | _ => inl (TypeError "rowdata")
       end).

Definition get_or_create : SyncModel.cls LogHost.t → kwargs → M db LogHost.t :=
  SyncModel.get_or_create execute fetchone make_where_statement.

Definition create : SyncModel.cls LogHost.t → bool → kwargs → M db LogHost.t :=
  SyncModel.create execute fetchone.

End Pg.

Module Mem.

(** The database is reachable or not; it keeps the five dimension tables,
    the entries and the links between entries and tags.  Entries with a
    negative level are refused. *)
Record world := mk {
  up : bool;
  hostname : string;
  sources : list LogSource.t;
  functions : list LogFunction.t;
  loggers : list LogLogger.t;
  hosts : list LogHost.t;
  tags : list LogTag.t;
  entries : list LogEntry.t;
  entry_tags : list (Z * Z);
  next_pk : Z
}.

Definition with_db {A} (db : option unit) (op : M world A) : M world A :=
  match db with
  | None => raise (ProgrammingError "not connected")
  | Some _ => λ w, if up w then op w else (inl (ConnectionFailure "connection lost"), w)
  end.

Definition mem_connect (dsn : string) : M world unit := λ w,
  if up w then (inr tt, w) else (inl (ConnectionFailure dsn), w).

Definition source_get_or_create (path : string) : M world LogSource.t := λ w,
  match find (λ r, bool_decide (LogSource.path r = path)) (sources w) with
  | Some r => (inr r, w)
  | None =>
      let r := LogSource.mk (next_pk w) path in
      (inr r, mk (up w) (hostname w) (sources w ++ [r]) (functions w) (loggers w) (hosts w)
                (tags w) (entries w) (entry_tags w) (next_pk w + 1))
  end.

Definition function_get_or_create (name : string) (line_number source_id : Z)
    : M world LogFunction.t := λ w,
  match find (λ r, bool_decide (LogFunction.name r = name ∧ LogFunction.line_number r = line_number
                                ∧ LogFunction.source_id r = source_id)) (functions w) with
  | Some r => (inr r, w)
  | None =>
      let r := LogFunction.mk (next_pk w) name line_number source_id in
      (inr r, mk (up w) (hostname w) (sources w) (functions w ++ [r]) (loggers w) (hosts w)
                (tags w) (entries w) (entry_tags w) (next_pk w + 1))
  end.

Definition logger_get_or_create (name : string) : M world LogLogger.t := λ w,
  match find (λ r, bool_decide (LogLogger.name r = name)) (loggers w) with
  | Some r => (inr r, w)
  | None =>
      let r := LogLogger.mk (next_pk w) name in
      (inr r, mk (up w) (hostname w) (sources w) (functions w) (loggers w ++ [r]) (hosts w)
                (tags w) (entries w) (entry_tags w) (next_pk w + 1))
  end.

Definition host_get_or_create (name : string) : M world LogHost.t := λ w,
  match find (λ r, bool_decide (LogHost.name r = name)) (hosts w) with
  | Some r => (inr r, w)
  | None =>
      let r := LogHost.mk (next_pk w) name in
      (inr r, mk (up w) (hostname w) (sources w) (functions w) (loggers w) (hosts w ++ [r])
                (tags w) (entries w) (entry_tags w) (next_pk w + 1))
  end.

Definition tag_get_or_create (name : string) : M world LogTag.t := λ w,
  match find (λ r, bool_decide (LogTag.name r = name)) (tags w) with
  | Some r => (inr r, w)
  | None =>
      let r := LogTag.mk (next_pk w) name in
      (inr r, mk (up w) (hostname w) (sources w) (functions w) (loggers w) (hosts w)
                (tags w ++ [r]) (entries w) (entry_tags w) (next_pk w + 1))
  end.

Definition entry_create (level : Z) (message : string) (pid time : Z)
    (function_id logger_id hostname_id : Z) : M world LogEntry.t := λ w,
  if bool_decide (level < 0) then (inl (DataError "level"), w)
  else
    let r := LogEntry.mk (next_pk w) level message pid time function_id logger_id hostname_id in
    (inr r, mk (up w) (hostname w) (sources w) (functions w) (loggers w) (hosts w)
              (tags w) (entries w ++ [r]) (entry_tags w) (next_pk w + 1)).

Definition entry_add_tags (entry : LogEntry.t) (tags_ : list LogTag.t) : M world unit := λ w,
  (inr tt, mk (up w) (hostname w) (sources w) (functions w) (loggers w) (hosts w)
             (tags w) (entries w)
             (entry_tags w ++ ((λ t, (LogEntry.pk entry, LogTag.pk t)) <$> tags_))
             (next_pk w)).

Global Instance storage : Storage world unit := {|
  connect := mem_connect;
  gethostname := hostname;
  LogSource_get_or_create db path := with_db db (source_get_or_create path);
  LogFunction_get_or_create db name line_number source_id :=
    with_db db (function_get_or_create name line_number source_id);
  LogLogger_get_or_create db name := with_db db (logger_get_or_create name);
  LogHost_get_or_create db name := with_db db (host_get_or_create name);
  LogTag_get_or_create db name := with_db db (tag_get_or_create name);
  LogEntry_create db level message pid time function_id logger_id hostname_id :=
    with_db db (entry_create level message pid time function_id logger_id hostname_id);
  LogEntry_add_tags entry db tags_ := with_db db (entry_add_tags entry tags_)
|}.

(** A server that is up, on host [web01], with empty tables. *)
Definition fresh : world := mk true "web01" [] [] [] [] [] [] [] 1.


End Mem.

(** A concurrent duplicate: the table is empty when this session selects,
    and another session commits the host [web01] before this session's
    insert arrives. *)
Definition race_db : Pg.db :=
  Pg.mk [] [] [[]; [[VInt 7; VStr "web01"]]] 1.

Definition web01 : kwargs := [("name", VStr "web01")].

(** A host table that no other session writes to: empty, and with the
    one host [web01]. *)
Definition empty_db : Pg.db := Pg.mk [] [] [] 1.
Definition one_host_db : Pg.db := Pg.mk [[VInt 7; VStr "web01"]] [] [] 8.

(** ** A cursor that keeps the statements it is given

    The state is paired with the list of the statements executed so far,
    each with its parameters; fetching leaves the list alone. *)
Abbreviation stmt := (string * list value)%type.

Definition recorded_execute {DB} (execute : string → list value → M DB unit)
    : string → list value → M (DB * list stmt) unit :=
  λ sql values dl,
    let '(r, d) := execute sql values dl.1 in
    (r, (d, dl.2 ++ [(sql, values)])).

Definition recorded {DB A} (op : M DB A) : M (DB * list stmt) A :=
  λ dl, let '(r, d) := op dl.1 in (r, (d, dl.2)).

(** The SELECT of [load] and [load_all] and the INSERT of [create], as
    they are built from the keyword arguments. *)
Definition select_stmt {Obj} (make_where_statement : kwargs → string * list value)
    (c : SyncModel.cls Obj) (kw : kwargs) : stmt :=
  let ser := SyncModel.serialize_data c kw in
  (SyncModel.select_sql c (make_where_statement ser).1, (make_where_statement ser).2).

Definition insert_stmt {Obj} (c : SyncModel.cls Obj) (ignore_conflicts : bool) (kw : kwargs)
    : stmt :=
  let ser := SyncModel.serialize_data c kw in
  (SyncModel.create_sql c ignore_conflicts ser, ser.*2).

(** [[cls(rowdata=data) for data in rows]] without a cursor: the objects in
    the order of the rows, or the exception of the first row that the
    constructor refuses. *)
Fixpoint construct_rows {Obj} (c : SyncModel.cls Obj) (rows : list rowdata) : exn + list Obj :=
  match rows with
  | [] => inr []
  | data :: rows' =>
      match SyncModel.construct c (Some data) with
      | inl e => inl e
      | inr o =>
          match construct_rows c rows' with
          | inl e => inl e
          | inr os => inr (o :: os)
          end
      end
  end.

(** ** Scenarios

    Three records: one from the logger [app.views] with a tag, one from
    another file without a [tags] attribute, and one the storage refuses
    (its level is negative). *)
Definition rec_one : LogRecord.t :=
  LogRecord.mk "app.views" "/a.py" "f" 1 20 "one" 100 0 (Some ["x"]).
Definition rec_two : LogRecord.t :=
  LogRecord.mk "app" "/b.py" "g" 2 20 "two" 100 0 None.
Definition rec_bad : LogRecord.t :=
  LogRecord.mk "app" "/a.py" "f" 1 (-1) "bad" 100 0 None.

Abbreviation MemState := (DBLogHandler.State (W:=Mem.world) (Pool:=unit)).

(** A process with one handler named [app], and one with a second handler
    named [audit]; the same with a server that cannot be reached. *)
Definition one_handler : MemState :=
  DBLogHandler.init "app" "logs" None None "localhost" 5432 0 (DBLogHandler.initial Mem.fresh).
Definition two_handlers : MemState :=
  DBLogHandler.init "audit" "logs" (Some "u") (Some "p") "localhost" 5432 0 one_handler.

(** The first handler has been given [rec_one] and its task has run to
    its end. *)
Definition after_first : MemState :=
  DBLogHandler.run_task 20 0 (DBLogHandler.emit 0 rec_one two_handlers).

(** Then the second handler is given [rec_two] and its task runs to its
    end. *)
Definition after_second : MemState :=
  DBLogHandler.run_task 20 1 (DBLogHandler.emit 1 rec_two after_first).

(** One handler, connected and with an empty queue: it has been given a
    record that the storage refused. *)
Definition connected : MemState :=
  DBLogHandler.run_task 20 0 (DBLogHandler.emit 0 rec_bad one_handler).

(** One handler whose task has connected, tested the queue and exchanged
    it: it is at the head of its [for] loop. *)
Definition at_for : MemState :=
  Nat.iter 3 (DBLogHandler.log_emitter_step 0) (DBLogHandler.emit 0 rec_one one_handler).

(** One handler whose task has connected and is at the test of its
    [while], with [rec_one] in the queue. *)
Definition at_while : MemState :=
  DBLogHandler.log_emitter_step 0 (DBLogHandler.emit 0 rec_one one_handler).

(** One handler after [rec_one], and one after [rec_two], each from the
    start. *)
Definition first_done : MemState :=
  DBLogHandler.run_task 20 0 (DBLogHandler.emit 0 rec_one one_handler).
Definition second_done : MemState :=
  DBLogHandler.run_task 20 0 (DBLogHandler.emit 0 rec_two one_handler).

(** A push that falls between the test of the [while] and line 83: the
    task has found the queue empty, [rec_two] is pushed, the task clears
    [emitter]. *)
Definition before_clear : MemState :=
  Nat.iter 6 (DBLogHandler.log_emitter_step 0) (DBLogHandler.emit 0 rec_one one_handler).
Definition stranded : MemState :=
  DBLogHandler.log_emitter_step 0 (DBLogHandler.emit 0 rec_two before_clear).

(** * Properties *)

(** ** The monad *)

Lemma bind_unfold {S A B} (m : M S A) (f : A → M S B) (s : S) :
  (m ≫= f) s =
  match m s with
  | (inl e, s') => (inl e, s')
  | (inr x, s') => f x s'
  end.
Proof. reflexivity. Qed.

Lemma bind_inr {S A B} (m : M S A) (f : A → M S B) s y s' :
  (m ≫= f) s = (inr y, s') ↔ ∃ x s1, m s = (inr x, s1) ∧ f x s1 = (inr y, s').
Proof.
  rewrite bind_unfold. destruct (m s) as [[e|x] s1]; split.
  - discriminate.
  - intros (x & s2 & Hm & _). discriminate.
  - eauto.
  - intros (x' & s2 & Hm & Hf). by simplify_eq.
Qed.


Lemma bind_returns {S A B} (m : M S A) (f : A → M S B) s x s' :
  m s = (inr x, s') → (m ≫= f) s = f x s'.
Proof. intros Hm. by rewrite bind_unfold, Hm. Qed.

(** ** [SyncModel] *)

Section SyncModelFacts.
Context {DB Obj : Type}.
Variable execute : string → list value → M DB unit.
Variable fetchone : M DB (option rowdata).
Variable make_where_statement : kwargs → string * list value.

Local Abbreviation load := (SyncModel.load execute fetchone make_where_statement).
Local Abbreviation create := (SyncModel.create (Obj:=Obj) execute fetchone).
Local Abbreviation create_kw := (SyncModel.create_kw (Obj:=Obj) execute fetchone).
Local Abbreviation get_or_create := (SyncModel.get_or_create execute fetchone make_where_statement).

Lemma filter_other_keys (kw : kwargs) (k : string) :
  k ∉ kw.*1 → filter (λ kv, kv.1 ≠ k) kw = kw.
Proof.
  induction kw as [|[k' v] kw IH]; intros Hk; [done|].
  rewrite filter_cons. simpl in *.
  apply not_elem_of_cons in Hk as [Hne Hk].
  destruct (decide (k' ≠ k)) as [_|Heq]; [by rewrite IH|].
  destruct Heq. congruence.
Qed.

(** Without a keyword [ignore_conflicts], [cls.create(db, **kwargs)] is
    [create] with the default [False]. *)
Lemma create_kw_default (c : SyncModel.cls Obj) (kw : kwargs) :
  "ignore_conflicts" ∉ kw.*1 → create_kw c kw = create c false kw.
Proof.
  intros Hk. unfold SyncModel.create_kw.
  rewrite (filter_other_keys kw _ Hk).
  rewrite (not_elem_of_list_to_map_1 (M:=gmap string) kw _ Hk).
  by rewrite bool_decide_eq_false_2.
Qed.

Lemma get_or_create_unfold (c : SyncModel.cls Obj) (kw : kwargs) (db : DB) :
  "ignore_conflicts" ∉ kw.*1 →
  get_or_create c kw db =
  match load c kw db with
  | (inl e, db') => (inl e, db')
  | (inr (Some o), db') => (inr o, db')
  | (inr None, db') => create c false kw db'
  end.
Proof.
  intros Hk. unfold SyncModel.get_or_create. rewrite bind_unfold.
  destruct (load c kw db) as [[e|[o|]] db']; [done|done|].
  by rewrite create_kw_default.
Qed.


End SyncModelFacts.



(** ** The handler *)

Import DBLogHandler.

Section HandlerFacts.
Context {W Pool : Type} `{!Storage W Pool}.
Implicit Types (s : State (W:=W) (Pool:=Pool)) (self tid : nat) (record : LogRecord.t).

Lemma frame_refl self s : frame self s s.
Proof.
  split; try done. exists []. by rewrite app_nil_r.
Qed.

Lemma frame_trans self s1 s2 s3 : frame self s1 s2 → frame self s2 s3 → frame self s1 s3.
Proof.
  intros [] []. split; try (etrans; eassumption); try congruence.
  destruct frame_calls0 as (e1 & H1 & F1), frame_calls1 as (e2 & H2 & F2).
  exists (e1 ++ e2). rewrite H2, H1, app_assoc. split; [done|]. by apply Forall_app.
Qed.

Lemma call_frame {A} self c (op : M W A) s r s' :
  call self c op s = (r, s') → frame self s s'.
Proof.
  unfold call. destruct (op (world s)) as [r' w] eqn:Hop. intros [= <- <-].
  split; try done. simpl. eexists. split; [done|]. by repeat constructor.
Qed.

(** Unfolding the monad on a given state. *)
Ltac run :=
  repeat first
    [ rewrite bind_unfold
    | progress (unfold gets, modify, mret, M_ret, raise; simpl) ].

Lemma call_caches {A} self c (op : M W A) s r s' :
  call self c op s = (r, s') →
  src_cache s' = src_cache s ∧ func_cache s' = func_cache s ∧
  logger_cache s' = logger_cache s ∧ host_cache s' = host_cache s ∧
  tag_cache s' = tag_cache s ∧ handlers s' = handlers s.
Proof.
  unfold call. destruct (op (world s)) as [r' w]. by intros [= <- <-].
Qed.

Lemma call_calls {A} self c (op : M W A) s r s' :
  call self c op s = (r, s') → calls s' = calls s ++ [Ev self c (is_inr r)].
Proof.
  unfold call. destruct (op (world s)) as [r' w]. by intros [= <- <-].
Qed.

(** *** The five lookups: a hit, a miss, and what they leave behind *)

Lemma resolve_source_hit self record s src :
  src_cache s !! LogRecord.pathname record = Some src →
  resolve_source self record s = (inr src, s).
Proof. intros H. unfold resolve_source. run. by rewrite H. Qed.

Lemma resolve_function_hit self record src s func :
  func_cache s !! func_key record src = Some func →
  resolve_function self record src s = (inr func, s).
Proof. intros H. unfold resolve_function. run. by rewrite H. Qed.

Lemma resolve_logger_hit self s logger :
  logger_cache s !! self_logger_name self s = Some logger →
  resolve_logger self s = (inr logger, s).
Proof. intros H. unfold resolve_logger. run. by rewrite H. Qed.

Lemma resolve_host_hit self s host :
  host_cache s !! gethostname (world s) = Some host →
  resolve_host self s = (inr host, s).
Proof. intros H. unfold resolve_host. run. by rewrite H. Qed.

Lemma resolve_tag_hit self tag_name s tag :
  tag_cache s !! tag_name = Some tag →
  resolve_tag self tag_name s = (inr tag, s).
Proof. intros H. unfold resolve_tag. run. by rewrite H. Qed.

(** One proof for the five: a hit changes nothing; a miss makes one call
    and, if it returns, enters the row under a key that was free. *)
Ltac lookup_cases Hc :=
  run;
  match goal with
  | |- context [ ?cache !! ?key ] => destruct (cache !! key) eqn:Hc
  end;
  [ intros [= <- <-]
  | run;
    match goal with
    | |- context [ call ?self ?c ?op ?s ] =>
        let r := fresh "r" in
        let s1 := fresh "s1" in
        let Hcall := fresh "Hcall" in
        destruct (call self c op s) as [[?|r] s1] eqn:Hcall;
        [ intros [= <- <-] | run; intros [= <- <-] ];
        pose proof (call_frame _ _ _ _ _ _ Hcall) as [];
        pose proof (call_caches _ _ _ _ _ _ Hcall) as (?&?&?&?&?&?);
        pose proof (call_calls _ _ _ _ _ _ Hcall)
    end ].

Lemma resolve_source_frame self record s r s' :
  resolve_source self record s = (r, s') → frame self s s'.
Proof.
  unfold resolve_source. lookup_cases Hc.
  - apply frame_refl.
  - by split.
  - split; simpl; try done.
    apply insert_subseteq_r; [congruence|done].
Qed.

Lemma resolve_function_frame self record src s r s' :
  resolve_function self record src s = (r, s') → frame self s s'.
Proof.
  unfold resolve_function. lookup_cases Hc.
  - apply frame_refl.
  - by split.
  - split; simpl; try done.
    apply insert_subseteq_r; [congruence|done].
Qed.

Lemma resolve_logger_frame self s r s' :
  resolve_logger self s = (r, s') → frame self s s'.
Proof.
  unfold resolve_logger. lookup_cases Hc.
  - apply frame_refl.
  - by split.
  - split; simpl; try done.
    apply insert_subseteq_r; [congruence|done].
Qed.

Lemma resolve_host_frame self s r s' :
  resolve_host self s = (r, s') → frame self s s'.
Proof.
  unfold resolve_host. lookup_cases Hc.
  - apply frame_refl.
  - by split.
  - split; simpl; try done.
    apply insert_subseteq_r; [congruence|done].
Qed.

Lemma resolve_tag_frame self tag_name s r s' :
  resolve_tag self tag_name s = (r, s') → frame self s s'.
Proof.
  unfold resolve_tag. lookup_cases Hc.
  - apply frame_refl.
  - by split.
  - split; simpl; try done.
    apply insert_subseteq_r; [congruence|done].
Qed.

(** After a lookup has returned, the row sits in the cache under its key. *)
Lemma resolve_source_cached self record s src s' :
  resolve_source self record s = (inr src, s') →
  src_cache s' !! LogRecord.pathname record = Some src.
Proof.
  unfold resolve_source. lookup_cases Hc; [done|].
  simpl. apply lookup_insert_eq.
Qed.

Lemma resolve_function_cached self record src s func s' :
  resolve_function self record src s = (inr func, s') →
  func_cache s' !! func_key record src = Some func.
Proof.
  unfold resolve_function. lookup_cases Hc; [done|].
  simpl. apply lookup_insert_eq.
Qed.

Lemma resolve_logger_cached self s logger s' :
  resolve_logger self s = (inr logger, s') →
  logger_cache s' !! self_logger_name self s = Some logger.
Proof.
  unfold resolve_logger. lookup_cases Hc; [done|].
  simpl. apply lookup_insert_eq.
Qed.


Lemma resolve_tag_cached self tag_name s tag s' :
  resolve_tag self tag_name s = (inr tag, s') →
  tag_cache s' !! tag_name = Some tag.
Proof.
  unfold resolve_tag. lookup_cases Hc; [done|].
  simpl. apply lookup_insert_eq.
Qed.

(** A lookup makes at most one call. *)
Lemma resolve_source_calls self record s r s' :
  resolve_source self record s = (r, s') →
  calls s' = calls s ∨
  calls s' = calls s ++ [Ev self (CSourceGetOrCreate (LogRecord.pathname record)) (is_inr r)].
Proof. unfold resolve_source. lookup_cases Hc; simpl; eauto. Qed.

Lemma resolve_function_calls self record src s r s' :
  resolve_function self record src s = (r, s') →
  calls s' = calls s ∨
  calls s' = calls s ++
    [Ev self (CFunctionGetOrCreate (LogRecord.name record +:+ "." +:+ LogRecord.funcName record)
                (LogRecord.lineno record) (LogSource.pk src)) (is_inr r)].
Proof. unfold resolve_function. lookup_cases Hc; simpl; eauto. Qed.

Lemma resolve_logger_calls self s r s' :
  resolve_logger self s = (r, s') →
  calls s' = calls s ∨
  calls s' = calls s ++ [Ev self (CLoggerGetOrCreate (self_logger_name self s)) (is_inr r)].
Proof. unfold resolve_logger. lookup_cases Hc; simpl; eauto. Qed.

Lemma resolve_host_calls self s r s' :
  resolve_host self s = (r, s') →
  calls s' = calls s ∨
  calls s' = calls s ++ [Ev self (CHostGetOrCreate (gethostname (world s))) (is_inr r)].
Proof. unfold resolve_host. lookup_cases Hc; simpl; eauto. Qed.

Lemma resolve_tag_calls self tag_name s r s' :
  resolve_tag self tag_name s = (r, s') →
  calls s' = calls s ∨
  calls s' = calls s ++ [Ev self (CTagGetOrCreate tag_name) (is_inr r)].
Proof. unfold resolve_tag. lookup_cases Hc; simpl; eauto. Qed.

Lemma resolve_tags_frame self tags_names tags s r s' :
  resolve_tags self tags_names tags s = (r, s') → frame self s s'.
Proof.
  revert tags s. induction tags_names as [|tag_name rest IH]; intros tags s; simpl.
  - intros [= <- <-]. apply frame_refl.
  - rewrite bind_unfold.
    destruct (resolve_tag self tag_name s) as [[e|tag] s1] eqn:Htag.
    + intros [= <- <-]. by eapply resolve_tag_frame.
    + intros Hrest. eapply frame_trans; [by eapply resolve_tag_frame|by eapply IH].
Qed.

Lemma create_entry_frame self record func logger host s r s' :
  create_entry self record func logger host s = (r, s') → frame self s s'.
Proof. unfold create_entry. run. apply call_frame. Qed.

Lemma add_tags_frame self entry tags s r s' :
  add_tags self entry tags s = (r, s') → frame self s s'.
Proof. unfold add_tags. run. apply call_frame. Qed.

Lemma async_emit_try_frame self record s r s' :
  async_emit_try self record s = (r, s') → frame self s s'.
Proof.
  unfold async_emit_try. rewrite bind_unfold.
  destruct (resolve_source self record s) as [[?|src] s1] eqn:H1;
    [intros [= <- <-]; by eapply resolve_source_frame|].
  apply resolve_source_frame in H1. rewrite bind_unfold.
  destruct (resolve_function self record src s1) as [[?|func] s2] eqn:H2;
    [intros [= <- <-]; eapply frame_trans; [done|by eapply resolve_function_frame]|].
  apply resolve_function_frame in H2. rewrite bind_unfold.
  destruct (resolve_logger self s2) as [[?|logger] s3] eqn:H3;
    [intros [= <- <-]; eauto using frame_trans, resolve_logger_frame|].
  apply resolve_logger_frame in H3. rewrite bind_unfold.
  destruct (resolve_host self s3) as [[?|host] s4] eqn:H4;
    [intros [= <- <-]; eauto using frame_trans, resolve_host_frame|].
  apply resolve_host_frame in H4. rewrite bind_unfold.
  destruct (create_entry self record func logger host s4) as [[?|entry] s5] eqn:H5;
    [intros [= <- <-]; eauto 6 using frame_trans, create_entry_frame|].
  apply create_entry_frame in H5. rewrite bind_unfold.
  destruct (resolve_tags self (default [] (LogRecord.tags record)) [] s5)
    as [[?|tags] s6] eqn:H6;
    [intros [= <- <-]; eauto 7 using frame_trans, resolve_tags_frame|].
  apply resolve_tags_frame in H6.
  intros H7%add_tags_frame. eauto 8 using frame_trans.
Qed.

(** *** [async_emit] never raises and touches neither queue nor tasks *)

Lemma async_emit_cases self record s :
  (∃ u s', async_emit_try self record s = (inr u, s') ∧ async_emit self record s = s') ∨
  (∃ e s', async_emit_try self record s = (inl e, s') ∧
           async_emit self record s = handleError self record s').
Proof.
  unfold async_emit. destruct (async_emit_try self record s) as [[e|u] s']; eauto.
Qed.

Lemma async_emit_unchanged self record s :
  let s' := async_emit self record s in
  cls_queue s' = cls_queue s ∧ handlers s' = handlers s ∧ tasks s' = tasks s ∧
  accesses s' = accesses s.
Proof.
  destruct (async_emit_cases self record s) as [(u & s' & Ht & ->)|(e & s' & Ht & ->)];
    apply async_emit_try_frame in Ht as []; by simpl.
Qed.



Lemma frame_caches_kept self s s' : frame self s s' → caches_kept s s'.
Proof. intros []. by repeat split. Qed.






(** *** Resolving a key twice *)



(** *** One record of a batch *)

Lemma async_emit_try_inr self record s u s' :
  async_emit_try self record s = (inr u, s') →
  ∃ src func logger host entry tags s1 s2 s3 s4 s5 s6,
    resolve_source self record s = (inr src, s1) ∧
    resolve_function self record src s1 = (inr func, s2) ∧
    resolve_logger self s2 = (inr logger, s3) ∧
    resolve_host self s3 = (inr host, s4) ∧
    create_entry self record func logger host s4 = (inr entry, s5) ∧
    resolve_tags self (default [] (LogRecord.tags record)) [] s5 = (inr tags, s6) ∧
    add_tags self entry tags s6 = (inr u, s').
Proof.
  unfold async_emit_try.
  intros (src & s1 & H1 & H)%bind_inr.
  apply bind_inr in H as (func & s2 & H2 & H).
  apply bind_inr in H as (logger & s3 & H3 & H).
  apply bind_inr in H as (host & s4 & H4 & H).
  apply bind_inr in H as (entry & s5 & H5 & H).
  apply bind_inr in H as (tags & s6 & H6 & H).
  by exists src, func, logger, host, entry, tags, s1, s2, s3, s4, s5, s6.
Qed.

Lemma create_entry_calls self record func logger host s r s' :
  create_entry self record func logger host s = (r, s') →
  calls s' = calls s ++
    [Ev self (entry_call record (LogFunction.pk func) (LogLogger.pk logger) (LogHost.pk host))
        (is_inr r)].
Proof. unfold create_entry. run. apply call_calls. Qed.

Lemma add_tags_calls self entry tags s r s' :
  add_tags self entry tags s = (r, s') →
  calls s' = calls s ++ [Ev self (CAddTags (LogEntry.pk entry) (LogTag.pk <$> tags)) (is_inr r)].
Proof. unfold add_tags. run. apply call_calls. Qed.

Lemma frame_calls_mono self s s' e : frame self s s' → e ∈ calls s → e ∈ calls s'.
Proof.
  intros [_ _ _ _ _ (evs & -> & _) _ _ _ _ _] He. apply elem_of_app. by left.
Qed.

(** A record whose processing went through has its entry in the store. *)
Lemma async_emit_try_written self record s u s' :
  async_emit_try self record s = (inr u, s') →
  ∃ function_id logger_id hostname_id,
    Ev self (entry_call record function_id logger_id hostname_id) true ∈ calls s'.
Proof.
  intros (src & func & logger & host & entry & tags & s1 & s2 & s3 & s4 & s5 & s6 &
          _ & _ & _ & _ & H5 & H6 & H7)%async_emit_try_inr.
  exists (LogFunction.pk func), (LogLogger.pk logger), (LogHost.pk host).
  apply resolve_tags_frame in H6. apply add_tags_frame in H7.
  eapply frame_calls_mono; [done|]. eapply frame_calls_mono; [done|].
  apply create_entry_calls in H5. rewrite H5. apply elem_of_app. right. by left.
Qed.

Lemma async_emit_mono self record s :
  (∀ e, e ∈ calls s → e ∈ calls (async_emit self record s)) ∧
  (∀ x, x ∈ reported s → x ∈ reported (async_emit self record s)).
Proof.
  destruct (async_emit_cases self record s) as [(u & s' & Ht & ->)|(e & s' & Ht & ->)];
    apply async_emit_try_frame in Ht; split; intros x Hx; simpl.
  - by eapply frame_calls_mono.
  - by rewrite (frame_reported _ _ _ Ht).
  - by eapply frame_calls_mono.
  - rewrite (frame_reported _ _ _ Ht). apply elem_of_app. by left.
Qed.

Lemma for_records_mono self q s :
  (∀ e, e ∈ calls s → e ∈ calls (for_records self q s)) ∧
  (∀ x, x ∈ reported s → x ∈ reported (for_records self q s)).
Proof.
  revert s. induction q as [|record q IH]; intros s; [done|].
  destruct (IH (async_emit self record s)) as [IH1 IH2].
  destruct (async_emit_mono self record s) as [H1 H2].
  split; intros x Hx; simpl; auto.
Qed.

Lemma for_records_app self q1 q2 s :
  for_records self (q1 ++ q2) s = for_records self q2 (for_records self q1 s).
Proof. apply foldl_app. Qed.

(** Every record of a batch is either reported or written. *)
Lemma for_records_all self q s record :
  record ∈ q →
  (self, record) ∈ reported (for_records self q s) ∨
  ∃ function_id logger_id hostname_id,
    Ev self (entry_call record function_id logger_id hostname_id) true
      ∈ calls (for_records self q s).
Proof.
  revert s. induction q as [|r q IH]; intros s Hin; [by apply elem_of_nil in Hin|].
  apply elem_of_cons in Hin as [->|Hin]; [|by apply IH].
  change (for_records self (r :: q) s) with (for_records self q (async_emit self r s)).
  destruct (for_records_mono self q (async_emit self r s)) as [Hc Hr].
  destruct (async_emit_cases self r s) as [(u & s' & Ht & Hs)|(e & s' & Ht & Hs)].
  - right. apply async_emit_try_written in Ht as (fid & lid & hid & Hev).
    exists fid, lid, hid. apply Hc. by rewrite Hs.
  - left. apply Hr. rewrite Hs. simpl. apply elem_of_app. right. by left.
Qed.

(** C2: in a batch, a record whose resolution or write raises is handed to
    [handleError] and the loop goes on: the batch is processed record by
    record whatever happens to one of them, every record of the batch ends
    up either reported or with its entry created, and the task stays alive
    after each record. *)
Theorem failure_is_contained self pre c post s :
  let s0 := for_records self pre s in
  let s' := for_records self (pre ++ c :: post) s in
  s' = for_records self post (async_emit self c s0) ∧
  (∀ e s1, async_emit_try self c s0 = (inl e, s1) →
     async_emit self c s0 = handleError self c s1 ∧
     reported (async_emit self c s0) = reported s0 ++ [(self, c)]) ∧
  (∀ record, record ∈ pre ++ c :: post →
     (self, record) ∈ reported s' ∨
     ∃ function_id logger_id hostname_id,
       Ev self (entry_call record function_id logger_id hostname_id) true ∈ calls s') ∧
  (∀ st tid q, tasks st !! tid = Some (mkTask self (AtFor q)) →
     ∃ t, tasks (log_emitter_step tid st) !! tid = Some t ∧ live t = true).
Proof.
  intros s0 s'. repeat split.
  - unfold s', s0. by rewrite for_records_app.
  - unfold async_emit. by rewrite H.
  - unfold async_emit. rewrite H. simpl.
    apply async_emit_try_frame in H. by rewrite (frame_reported _ _ _ H).
  - intros record Hin. by apply for_records_all.
  - intros st tid q Ht. unfold log_emitter_step. rewrite Ht. simpl.
    assert (∀ s'' p, tasks s'' = tasks st → live (mkTask self p) = true →
              ∃ t, tasks (set_pc tid p s'') !! tid = Some t ∧ live t = true) as Hset.
    { intros s'' p Heq Hp. exists (mkTask self p). split; [|done].
      unfold set_pc. simpl. rewrite Heq, list_lookup_alter_eq, Ht. done. }
    destruct q as [i|[|record rest]].
    + destruct (cls_queue st !! i); apply Hset; try done.
      apply async_emit_unchanged.
    + by apply Hset.
    + apply Hset; [|done]. apply async_emit_unchanged.
Qed.

(** *** Which names the keys are made of *)

Lemma frame_logger_name self s s' : frame self s s' → self_logger_name self s' = self_logger_name self s.
Proof. intros []. unfold self_logger_name. by rewrite frame_handlers0. Qed.

Lemma init_logger_name name db_name db_user db_password db_host db_port level s :
  self_logger_name (length (handlers s))
    (init name db_name db_user db_password db_host db_port level s) = name.
Proof.
  unfold self_logger_name, init. simpl.
  by rewrite lookup_app_r, Nat.sub_diag.
Qed.

(** C6 (as amended): a record that goes through leaves the logger row
    cached under the name the handler was constructed with, and the
    function row cached under the key made of the record's own [name], the
    function name, the line and the path of the source row; these are the
    rows whose ids the entry is created with. *)
Theorem logger_key_and_function_key self record s u s' :
  async_emit_try self record s = (inr u, s') →
  ∃ src func logger,
    src_cache s' !! LogRecord.pathname record = Some src ∧
    func_cache s' !! (LogRecord.name record +:+ "." +:+ LogRecord.funcName record +:+ ":"
                        +:+ pretty (LogRecord.lineno record) +:+ "@" +:+ LogSource.path src)
      = Some func ∧
    logger_cache s' !! self_logger_name self s = Some logger ∧
    ∃ hostname_id,
      Ev self (entry_call record (LogFunction.pk func) (LogLogger.pk logger) hostname_id) true
        ∈ calls s'.
Proof.
  intros (src & func & logger & host & entry & tags & s1 & s2 & s3 & s4 & s5 & s6 &
          H1 & H2 & H3 & H4 & H5 & H6 & H7)%async_emit_try_inr.
  exists src, func, logger.
  pose proof (resolve_source_cached _ _ _ _ _ H1) as C1.
  pose proof (resolve_function_cached _ _ _ _ _ _ H2) as C2.
  pose proof (resolve_logger_cached _ _ _ _ H3) as C3.
  pose proof (create_entry_calls _ _ _ _ _ _ _ _ H5) as C5.
  apply resolve_source_frame in H1. apply resolve_function_frame in H2.
  apply resolve_logger_frame in H3. apply resolve_host_frame in H4.
  apply create_entry_frame in H5. apply resolve_tags_frame in H6.
  apply add_tags_frame in H7.
  assert (frame self s1 s') as F1 by eauto 8 using frame_trans.
  assert (frame self s2 s') as F2 by eauto 8 using frame_trans.
  assert (frame self s3 s') as F3 by eauto 8 using frame_trans.
  assert (frame self s5 s') as F5 by eauto 8 using frame_trans.
  repeat split.
  - eapply lookup_weaken; [done|]. by destruct F1.
  - eapply lookup_weaken; [done|]. by destruct F2.
  - eapply lookup_weaken; [|by destruct F3].
    rewrite <- C3. f_equal.
    rewrite <- (frame_logger_name self s s2); [done|by eapply frame_trans].
  - exists (LogHost.pk host). eapply frame_calls_mono; [done|].
    rewrite C5. apply elem_of_app. right. by left.
Qed.

(** *** A record without tags *)

Lemma no_tag_work_refl s : no_tag_work s s.
Proof. split; [done|]. exists []. by rewrite app_nil_r. Qed.

Lemma no_tag_work_trans s1 s2 s3 : no_tag_work s1 s2 → no_tag_work s2 s3 → no_tag_work s1 s3.
Proof.
  intros [T1 (e1 & C1 & F1)] [T2 (e2 & C2 & F2)]. split; [congruence|].
  exists (e1 ++ e2). rewrite C2, C1, app_assoc. split; [done|]. by apply Forall_app.
Qed.

Lemma call_no_tag_work {A} self c (op : M W A) s r s' :
  is_tag_call c = false → call self c op s = (r, s') → no_tag_work s s'.
Proof.
  intros Hc Hcall. split; [by apply call_caches in Hcall as (?&?&?&?&?&?)|].
  apply call_calls in Hcall. eexists. split; [done|]. by repeat constructor.
Qed.

Ltac no_tag_lookup :=
  let Hc := fresh "Hc" in
  lookup_cases Hc;
  [ apply no_tag_work_refl
  | split; [done|]; eexists; split; [done|]; by repeat constructor
  | split; simpl; [done|]; eexists; split; [done|]; by repeat constructor ].

Lemma resolve_source_no_tag self record s r s' :
  resolve_source self record s = (r, s') → no_tag_work s s'.
Proof. unfold resolve_source. no_tag_lookup. Qed.

Lemma resolve_function_no_tag self record src s r s' :
  resolve_function self record src s = (r, s') → no_tag_work s s'.
Proof. unfold resolve_function. no_tag_lookup. Qed.

Lemma resolve_logger_no_tag self s r s' :
  resolve_logger self s = (r, s') → no_tag_work s s'.
Proof. unfold resolve_logger. no_tag_lookup. Qed.

Lemma resolve_host_no_tag self s r s' :
  resolve_host self s = (r, s') → no_tag_work s s'.
Proof. unfold resolve_host. no_tag_lookup. Qed.

Lemma create_entry_no_tag self record func logger host s r s' :
  create_entry self record func logger host s = (r, s') → no_tag_work s s'.
Proof. unfold create_entry. run. by apply call_no_tag_work. Qed.

Lemma add_tags_no_tag self entry tags s r s' :
  add_tags self entry tags s = (r, s') → no_tag_work s s'.
Proof. unfold add_tags. run. by apply call_no_tag_work. Qed.

(** C10 (as amended): for a record that has no [tags] attribute, no tag
    is looked up or created and the tag cache stays as it is; when the four
    dimensions resolve and the entry is created, the entry carries the
    three ids of the function, logger and host rows, and what remains is the
    one call of [add_tags] with the empty list, whose outcome is that of
    the whole. *)
Theorem record_without_tags self record s r s' :
  LogRecord.tags record = None →
  async_emit_try self record s = (r, s') →
  no_tag_work s s' ∧
  ∀ src func logger host entry s1 s2 s3 s4 s5,
    resolve_source self record s = (inr src, s1) →
    resolve_function self record src s1 = (inr func, s2) →
    resolve_logger self s2 = (inr logger, s3) →
    resolve_host self s3 = (inr host, s4) →
    create_entry self record func logger host s4 = (inr entry, s5) →
    add_tags self entry [] s5 = (r, s') ∧
    calls s' = calls s4 ++
      [Ev self (entry_call record (LogFunction.pk func) (LogLogger.pk logger) (LogHost.pk host))
          true;
       Ev self (CAddTags (LogEntry.pk entry) []) (is_inr r)].
Proof.
  intros Htags Htry. split.
  - revert Htry. unfold async_emit_try. rewrite Htags. simpl. rewrite bind_unfold.
    destruct (resolve_source self record s) as [[?|src] s1] eqn:H1;
      [intros [= <- <-]; by eapply resolve_source_no_tag|].
    apply resolve_source_no_tag in H1. rewrite bind_unfold.
    destruct (resolve_function self record src s1) as [[?|func] s2] eqn:H2;
      [intros [= <- <-]; eauto using no_tag_work_trans, resolve_function_no_tag|].
    apply resolve_function_no_tag in H2. rewrite bind_unfold.
    destruct (resolve_logger self s2) as [[?|logger] s3] eqn:H3;
      [intros [= <- <-]; eauto using no_tag_work_trans, resolve_logger_no_tag|].
    apply resolve_logger_no_tag in H3. rewrite bind_unfold.
    destruct (resolve_host self s3) as [[?|host] s4] eqn:H4;
      [intros [= <- <-]; eauto 6 using no_tag_work_trans, resolve_host_no_tag|].
    apply resolve_host_no_tag in H4. rewrite bind_unfold.
    destruct (create_entry self record func logger host s4) as [[?|entry] s5] eqn:H5;
      [intros [= <- <-]; eauto 7 using no_tag_work_trans, create_entry_no_tag|].
    apply create_entry_no_tag in H5. run.
    intros H7%add_tags_no_tag. eauto 8 using no_tag_work_trans.
  - intros src func logger host entry s1 s2 s3 s4 s5 H1 H2 H3 H4 H5.
    revert Htry. unfold async_emit_try. rewrite Htags. simpl.
    rewrite (bind_returns _ _ _ _ _ H1), (bind_returns _ _ _ _ _ H2),
      (bind_returns _ _ _ _ _ H3), (bind_returns _ _ _ _ _ H4), (bind_returns _ _ _ _ _ H5).
    run. intros H7. split; [done|].
    apply add_tags_calls in H7. apply create_entry_calls in H5.
    rewrite H7, H5, <- app_assoc. done.
Qed.

(** *** Attributes after an update of one instance *)

Lemma self_emitter_upd_self self self' (f : Handler → Handler) s :
  (∀ h, emitter (f h) = emitter h) →
  self_emitter self' (upd_self self f s) = self_emitter self' s.
Proof.
  intros Hf. unfold self_emitter, upd_self. simpl.
  destruct (decide (self = self')) as [->|Hne].
  - rewrite list_lookup_alter_eq. destruct (handlers s !! self'); simpl; [apply Hf|done].
  - by rewrite list_lookup_alter_ne.
Qed.

Lemma self_emitter_set_emitter self self' v s :
  self_emitter self' (upd_self self (set_emitter v) s) =
  if decide (self = self')
  then (match handlers s !! self with Some _ => v | None => None end)
  else self_emitter self' s.
Proof.
  unfold self_emitter, upd_self. simpl. case_decide as Heq.
  - subst. rewrite list_lookup_alter_eq. by destruct (handlers s !! self').
  - by rewrite list_lookup_alter_ne.
Qed.

Lemma self_emitter_handlers self s s' :
  handlers s' = handlers s → self_emitter self s' = self_emitter self s.
Proof. unfold self_emitter. by intros ->. Qed.

Lemma filter_alter_length {A} (P : A → Prop) `{∀ x, Decision (P x)} (f : A → A) l i x :
  l !! i = Some x →
  (length (filter P (alter f i l)) + (if decide (P x) then 1 else 0) =
   length (filter P l) + (if decide (P (f x)) then 1 else 0))%nat.
Proof.
  revert i. induction l as [|y l IH]; intros [|i] Hi; simplify_eq/=.
  - rewrite !filter_cons. repeat case_decide; simpl; lia.
  - rewrite !filter_cons. specialize (IH _ Hi).
    destruct (decide (P y)); simpl; lia.
Qed.

(** Moving one task to another point: the live tasks of a handler change
    by that task only. *)
Lemma live_tasks_set_pc self tid p s t :
  tasks s !! tid = Some t →
  (length (live_tasks self (set_pc tid p s))
   + (if decide (owner t = self ∧ live t = true) then 1 else 0) =
   length (live_tasks self s)
   + (if decide (owner t = self ∧ live (mkTask (owner t) p) = true) then 1 else 0))%nat.
Proof.
  intros Ht. unfold live_tasks, set_pc. simpl.
  exact (filter_alter_length (λ t, owner t = self ∧ live t = true)
           (λ t, mkTask (owner t) p) (tasks s) tid t Ht).
Qed.

Lemma live_tasks_tasks self s s' : tasks s' = tasks s → live_tasks self s' = live_tasks self s.
Proof. unfold live_tasks. by intros ->. Qed.

(** *** What [emit] does *)

Lemma emit_effect self record s h :
  handlers s !! self = Some h →
  let s' := emit self record s in
  tasks s' = match emitter h with None => tasks s ++ [mkTask self AtStart] | Some _ => tasks s end ∧
  (∀ self', self_emitter self' s' =
     if decide (self' = self)
     then match emitter h with None => Some (length (tasks s)) | Some t => Some t end
     else self_emitter self' s) ∧
  self_queue self s' = self_queue self s ++ [record] ∧
  (∀ self', self' ≠ self → queue <$> handlers s' !! self' = queue <$> handlers s !! self') ∧
  lock <$> handlers s' !! self = Some (lock h).
Proof.
  intros Hh. unfold emit. rewrite Hh.
  unfold queue_append, self_emitter, self_queue, create_task, release, acquire, touch, upd_self.
  simpl. rewrite !list_lookup_alter_eq, Hh. simpl.
  destruct (queue h) as [q|] eqn:Hq; simpl;
    rewrite ?list_lookup_alter_eq, ?Hh; simpl;
    destruct (emitter h) as [t|] eqn:He; simpl.
  all: repeat split; try done.
  all: try (intros self'; case_decide as Hd;
            [subst; rewrite ?list_lookup_alter_eq, ?Hh; by simpl; rewrite ?He
            |by rewrite ?list_lookup_alter_ne by done]).
  all: try (rewrite ?list_lookup_alter_eq, ?Hh; simpl; by rewrite ?Hq).
  all: try (intros self' Hne; by rewrite ?list_lookup_alter_ne by done).
Qed.

Lemma emit_outside self record s :
  let s' := emit self record s in
  world s' = world s ∧ calls s' = calls s ∧ reported s' = reported s ∧
  src_cache s' = src_cache s ∧ func_cache s' = func_cache s ∧
  logger_cache s' = logger_cache s ∧ host_cache s' = host_cache s ∧
  tag_cache s' = tag_cache s.
Proof.
  unfold emit, queue_append, create_task. repeat case_match; by repeat split.
Qed.

Lemma self_emitter_lookup self s h :
  handlers s !! self = Some h → self_emitter self s = emitter h.
Proof. unfold self_emitter. by intros ->. Qed.

(** *** At most one live task per handler *)

Lemma single_flight_initial (w : W) : single_flight (initial (Pool:=Pool) w).
Proof. intros self. unfold live_tasks. simpl. lia. Qed.

Lemma single_flight_init name db_name db_user db_password db_host db_port level s :
  single_flight s →
  single_flight (init name db_name db_user db_password db_host db_port level s).
Proof.
  intros Hinv self. specialize (Hinv self).
  unfold live_tasks, self_emitter, init in *. simpl.
  destruct (handlers s !! self) as [h|] eqn:Hh.
  - by rewrite (lookup_app_l_Some _ _ _ _ Hh).
  - simpl in Hinv. case_match; lia.
Qed.

Lemma single_flight_emit self record s :
  single_flight s → single_flight (emit self record s).
Proof.
  intros Hinv. destruct (handlers s !! self) as [h|] eqn:Hh;
    [|unfold emit; by rewrite Hh].
  destruct (emit_effect self record s h Hh) as (Ht & He & _).
  intros self'. rewrite He. unfold live_tasks. rewrite Ht.
  pose proof (Hinv self') as Hs. unfold live_tasks in Hs.
  destruct (emitter h) as [t|] eqn:Hem.
  - case_decide as Hd; [|done]. subst self'.
    by rewrite (self_emitter_lookup _ _ _ Hh), Hem in Hs.
  - rewrite filter_app, length_app, filter_cons, filter_nil. simpl.
    destruct (decide (self' = self)) as [->|Hd].
    + rewrite (self_emitter_lookup _ _ _ Hh), Hem in Hs.
      case_decide; simpl; lia.
    + rewrite decide_False by (intros [? _]; congruence). simpl. lia.
Qed.

Lemma set_pc_emitter self tid p s : self_emitter self (set_pc tid p s) = self_emitter self s.
Proof. done. Qed.

Lemma single_flight_move s s1 tid t p :
  single_flight s → tasks s !! tid = Some t → live t = true →
  tasks s1 = tasks s → (∀ self, self_emitter self s1 = self_emitter self s) →
  single_flight (set_pc tid p s1).
Proof.
  intros Hinv Ht Hlive Htasks Hemitter self.
  rewrite set_pc_emitter, Hemitter.
  specialize (Hinv self). rewrite <- (live_tasks_tasks self s s1 Htasks) in Hinv.
  rewrite <- Htasks in Ht.
  pose proof (live_tasks_set_pc self tid p s1 t Ht) as Hlen.
  destruct (self_emitter self s); repeat case_decide; destruct_and?; simplify_eq;
    first [lia | exfalso; auto].
Qed.

Lemma single_flight_clear s s1 tid t :
  single_flight s → tasks s !! tid = Some t → live t = true →
  tasks s1 = tasks s → handlers s1 = handlers s →
  single_flight (set_pc tid Returned (upd_self (owner t) (set_emitter None) s1)).
Proof.
  intros Hinv Ht Hlive Htasks Hhandlers self.
  rewrite set_pc_emitter, self_emitter_set_emitter, (self_emitter_handlers _ _ _ Hhandlers).
  specialize (Hinv self). rewrite <- (live_tasks_tasks self s s1 Htasks) in Hinv.
  rewrite <- Htasks in Ht.
  pose proof (live_tasks_set_pc self tid Returned
                (upd_self (owner t) (set_emitter None) s1) t Ht) as Hlen.
  change (live_tasks self (upd_self _ _ s1)) with (live_tasks self s1) in Hlen.
  simpl in Hlen.
  destruct (self_emitter self s); repeat case_decide; repeat case_match;
    destruct_and?; simplify_eq; first [lia | exfalso; auto].
Qed.

(** Taking or giving back the lock, storing the pool and rebinding the
    queue leave [emitter] as it is. *)
Lemma self_emitter_set_accesses self f s :
  self_emitter self (set_accesses f s) = self_emitter self s.
Proof. done. Qed.

Ltac emitter_kept :=
  intros; unfold release, acquire, touch;
  repeat first
    [ rewrite self_emitter_set_accesses
    | rewrite self_emitter_upd_self by done ];
  try done;
  try (apply self_emitter_handlers; done).

Lemma single_flight_task tid s : single_flight s → single_flight (log_emitter_step tid s).
Proof.
  intros Hinv. unfold log_emitter_step.
  destruct (tasks s !! tid) as [t|] eqn:Ht; [|done].
  destruct (pc t) as [| | |q| | |e] eqn:Hpc; try done;
    (assert (live t = true) as Hlive by (unfold live; by rewrite Hpc)).
  - destruct (self_db (owner t) s); [by eapply single_flight_move|].
    destruct (call _ _ _ _) as [[e|pool] s1] eqn:Hcall;
      pose proof (call_frame _ _ _ _ _ _ Hcall) as [_ Hh Htk _ _ _ _ _ _ _ _].
    + eapply single_flight_move; try done.
      intros self. rewrite (self_emitter_handlers _ _ _ Hh). emitter_kept.
    + eapply single_flight_move; try done.
      intros self. emitter_kept. rewrite (self_emitter_handlers _ _ _ Hh). emitter_kept.
  - case_bool_decide; by eapply single_flight_move.
  - eapply single_flight_move; try done. emitter_kept.
  - destruct q as [i|[|record rest]].
    + destruct (cls_queue s !! i); [|by eapply single_flight_move].
      eapply single_flight_move; try done; [apply async_emit_unchanged|].
      intros self. apply self_emitter_handlers, async_emit_unchanged.
    + by eapply single_flight_move.
    + eapply single_flight_move; try done; [apply async_emit_unchanged|].
      intros self. apply self_emitter_handlers, async_emit_unchanged.
  - by eapply single_flight_clear.
Qed.

Lemma single_flight_step s s' : step s s' → single_flight s → single_flight s'.
Proof.
  destruct 1; intros Hinv.
  - by apply single_flight_init.
  - by apply single_flight_emit.
  - by apply single_flight_task.
  - done.
Qed.

Lemma single_flight_steps s s' : rtc step s s' → single_flight s → single_flight s'.
Proof. induction 1; eauto using single_flight_step. Qed.

Lemma single_flight_reachable s : reachable s → single_flight s.
Proof. intros [w Hw]. eapply single_flight_steps; [done|apply single_flight_initial]. Qed.

Lemma emit_accesses self record s h :
  handlers s !! self = Some h →
  accesses (emit self record s) =
  accesses s ++ [Acc self AQueue AWrite true; Acc self AEmitter ARead true] ++
    match emitter h with
    | None => [Acc self AEmitter AWrite true]
    | Some _ => []
    end.
Proof.
  intros Hh. unfold emit. rewrite Hh.
  unfold queue_append, self_emitter, self_locked, create_task, release, acquire, touch, upd_self.
  simpl. rewrite !list_lookup_alter_eq, Hh. simpl.
  destruct (queue h) as [q|] eqn:Hq; simpl;
    rewrite ?list_lookup_alter_eq, ?Hh; simpl;
    destruct (emitter h) as [t|] eqn:He; simpl;
    rewrite ?list_lookup_alter_eq, ?Hh; simpl;
    rewrite <- ?app_assoc; simpl; repeat f_equal;
    unfold self_locked; simpl; rewrite ?list_lookup_alter_eq, ?Hh; simpl;
    by rewrite ?bool_decide_eq_true_2 by lia.
Qed.

Lemma emits_busy self records s h t :
  handlers s !! self = Some h → emitter h = Some t →
  tasks (emits self records s) = tasks s ∧ self_emitter self (emits self records s) = Some t.
Proof.
  revert s h. induction records as [|record records IH]; intros s h Hh He; simpl.
  - split; [done|]. by rewrite (self_emitter_lookup _ _ _ Hh).
  - destruct (emit_effect self record s h Hh) as (Ht & Hem & _).
    specialize (Hem self). rewrite decide_True, He in Hem by done. rewrite He in Ht.
    unfold self_emitter in Hem.
    destruct (handlers (emit self record s) !! self) as [h'|] eqn:Hh'; [|done].
    destruct (IH _ _ Hh' Hem) as [IH1 IH2]. unfold emits in *. by rewrite IH1, IH2.
Qed.

(** C5: in every state the process can reach, a handler has at most one
    live [log_emitter] task; a push that finds [emitter] unset creates the
    task and sets [emitter], pushes that follow create none; and all that a
    push reads and writes of [queue] and [emitter], the test and the
    assignment of [emitter] included, happens with the lock held. *)
Theorem single_drain_task :
  (∀ s self, reachable s → (length (live_tasks self s) ≤ 1)%nat) ∧
  (∀ s self h record rest,
     handlers s !! self = Some h → emitter h = None →
     tasks (emit self record s) = tasks s ++ [mkTask self AtStart] ∧
     self_emitter self (emit self record s) = Some (length (tasks s)) ∧
     tasks (emits self rest (emit self record s)) = tasks (emit self record s)) ∧
  (∀ s self h record,
     handlers s !! self = Some h →
     ∃ l, accesses (emit self record s) = accesses s ++ l ∧
          Forall (λ a, a_locked a = true) l ∧
          Acc self AEmitter ARead true ∈ l).
Proof.
  split; [|split].
  - intros s self Hr%single_flight_reachable. specialize (Hr self).
    destruct (self_emitter self s); lia.
  - intros s self h record rest Hh He.
    destruct (emit_effect self record s h Hh) as (Ht & Hem & _).
    specialize (Hem self). rewrite decide_True, He in Hem by done. rewrite He in Ht.
    repeat split; [done|done|].
    unfold self_emitter in Hem.
    destruct (handlers (emit self record s) !! self) as [h'|] eqn:Hh'; [|done].
    by destruct (emits_busy self rest _ _ _ Hh' Hem).
  - intros s self h record Hh. rewrite (emit_accesses _ _ _ _ Hh).
    eexists. split; [done|]. split.
    + destruct (emitter h); by repeat constructor.
    + apply elem_of_app. left. right. by left.
Qed.

(** *** What a step of a task can touch *)

Lemma async_emit_calls self record s :
  ∃ evs, calls (async_emit self record s) = calls s ++ evs ∧
         Forall (λ e, ev_self e = self) evs.
Proof.
  destruct (async_emit_cases self record s) as [(u & s' & Ht & ->)|(e & s' & Ht & ->)];
    by apply async_emit_try_frame in Ht as [].
Qed.

(** A step of a task either does nothing, the task being over, or moves
    that task, touching no other task, no handler but the task's owner, and
    adding to the call log only calls of the owner. *)
Lemma log_emitter_step_shape tid s t :
  tasks s !! tid = Some t →
  (live t = false ∧ log_emitter_step tid s = s) ∨
  (live t = true ∧
   ∃ p s1, log_emitter_step tid s = set_pc tid p s1 ∧
     tasks s1 = tasks s ∧
     (∀ self, self ≠ owner t → handlers s1 !! self = handlers s !! self) ∧
     ∃ evs, calls s1 = calls s ++ evs ∧ Forall (λ e, ev_self e = owner t) evs).
Proof.
  intros Ht. unfold log_emitter_step. rewrite Ht.
  assert (∃ evs, calls s = calls s ++ evs ∧ Forall (λ e, ev_self e = owner t) evs) as Hnil
    by (exists []; by rewrite app_nil_r).
  assert (∀ f self, self ≠ owner t →
            alter f (owner t) (handlers s) !! self = handlers s !! self) as Hother
    by (intros; by apply list_lookup_alter_ne).
  destruct (pc t) as [| | |q| | |e] eqn:Hpc;
    try (left; split; [unfold live; by rewrite Hpc|done]);
    right; (split; [unfold live; by rewrite Hpc|]).
  - destruct (self_db (owner t) s); [by eexists _, _|].
    destruct (call _ _ _ _) as [[e|pool] s1] eqn:Hcall;
      pose proof (call_frame _ _ _ _ _ _ Hcall) as [_ Hh Htk _ _ Hcalls _ _ _ _ _];
      eexists _, _; (split; [done|]); simpl in *; rewrite ?Hh; repeat split; try done;
      intros self Hne; by rewrite ?list_lookup_alter_ne by done.
  - case_bool_decide; by eexists _, _.
  - eexists _, _. split; [done|]. simpl. repeat split; try done.
    intros self Hne. by rewrite ?list_lookup_alter_ne by done.
  - destruct q as [i|[|record rest]].
    + destruct (cls_queue s !! i) as [r|]; [|by eexists _, _].
      eexists _, _. split; [done|].
      destruct (async_emit_unchanged (owner t) r s) as (_ & Hh & Htk & _).
      rewrite Hh. repeat split; try done. apply async_emit_calls.
    + by eexists _, _.
    + eexists _, _. split; [done|].
      destruct (async_emit_unchanged (owner t) record s) as (_ & Hh & Htk & _).
      rewrite Hh. repeat split; try done. apply async_emit_calls.
  - eexists _, _. split; [done|]. simpl. repeat split; try done.
    intros self Hne. by rewrite ?list_lookup_alter_ne by done.
Qed.



Lemma filter_none {A} (P : A → Prop) `{∀ x, Decision (P x)} (l : list A) :
  Forall (λ x, ¬ P x) l → filter P l = [].
Proof.
  induction 1 as [|x l Hx _ IH]; [done|].
  by rewrite filter_cons, decide_False.
Qed.


Lemma emit_db self self' record s : self_db self' (emit self record s) = self_db self' s.
Proof.
  unfold emit. destruct (handlers s !! self) as [h|] eqn:Hh; [|done].
  unfold queue_append, self_db, create_task, release, acquire, touch, upd_self.
  simpl. destruct (decide (self = self')) as [->|Hne].
  - repeat case_match; simpl; rewrite ?list_lookup_alter_eq, ?Hh; simpl;
      rewrite ?list_lookup_alter_eq, ?Hh; by simpl.
  - repeat case_match; simpl; by rewrite ?list_lookup_alter_ne by done.
Qed.






(** *** [emit] and the storage *)



(** ** Further properties of the handler *)

Lemma emit_exists self record s h :
  handlers s !! self = Some h → is_Some (handlers (emit self record s) !! self).
Proof.
  intros Hh. destruct (emit_effect self record s h Hh) as (_ & _ & _ & _ & Hl).
  destruct (handlers (emit self record s) !! self); [eauto|done].
Qed.

(** X7: pushes on one handler queue up in the order in which they are
    made, and all of them together make no call, leave the outside world
    alone and create at most one task. *)
Theorem emits_fifo self records s h :
  handlers s !! self = Some h →
  self_queue self (emits self records s) = self_queue self s ++ records ∧
  calls (emits self records s) = calls s ∧
  world (emits self records s) = world s ∧
  (length (tasks (emits self records s)) ≤ S (length (tasks s)))%nat ∧
  (is_Some (emitter h) → tasks (emits self records s) = tasks s).
Proof.
  revert s h. induction records as [|record records IH]; intros s h Hh.
  - simpl. rewrite app_nil_r. repeat split; (done || lia).
  - destruct (emit_effect self record s h Hh) as (Ht & Hem & Hq & _).
    destruct (emit_outside self record s) as (Hw & Hc & _).
    destruct (emit_exists self record s h Hh) as [h' Hh'].
    destruct (IH _ _ Hh') as (IHq & IHc & IHw & IHt & IHe).
    change (emits self (record :: records) s) with (emits self records (emit self record s)).
    rewrite IHq, IHc, IHw, Hq, Hc, Hw, <- app_assoc.
    assert (is_Some (emitter h')) as Hbusy.
    { specialize (Hem self). rewrite decide_True in Hem by done.
      rewrite (self_emitter_lookup _ _ _ Hh') in Hem. rewrite Hem.
      destruct (emitter h); eauto. }
    rewrite (IHe Hbusy), Ht.
    repeat split; try done.
    + destruct (emitter h); rewrite ?length_app; simpl; lia.
    + intros [t Ht']. by rewrite Ht'.
Qed.

Lemma resolve_tags_hits self tags_names tags acc s :
  Forall2 (λ n t, tag_cache s !! n = Some t) tags_names tags →
  resolve_tags self tags_names acc s = (inr (acc ++ tags), s).
Proof.
  intros Hall. revert acc. induction Hall as [|n t names tags Hn _ IH]; intros acc; simpl.
  - by rewrite app_nil_r.
  - rewrite bind_unfold, (resolve_tag_hit _ _ _ _ Hn), IH, <- app_assoc. done.
Qed.

(** X8: the loop over the tag names hands over one row per name, in the
    order of the names, each the row that the cache holds under the name
    when the loop is through; a name that comes twice gives its row
    twice. *)
Theorem resolve_tags_rows self tags_names acc s tags s' :
  resolve_tags self tags_names acc s = (inr tags, s') →
  ∃ rows, tags = acc ++ rows ∧
          Forall2 (λ n t, tag_cache s' !! n = Some t) tags_names rows.
Proof.
  revert acc s. induction tags_names as [|n names IH]; intros acc s; simpl.
  - intros [= <- <-]. exists []. by rewrite app_nil_r.
  - intros (tag & s1 & Htag & Hrest)%bind_inr.
    pose proof (resolve_tag_cached _ _ _ _ _ Htag) as Hc.
    pose proof (resolve_tags_frame _ _ _ _ _ _ Hrest) as Hf.
    destruct (IH _ _ Hrest) as (rows & -> & Hrows).
    exists (tag :: rows). rewrite <- app_assoc. split; [done|].
    constructor; [|done]. eapply lookup_weaken; [done|]. by destruct Hf.
Qed.

(** X9: a record whose source, function, logger and host and all of
    whose tags are cached is processed with two calls, the creation of the
    entry with the cached ids and the association of the cached tags; no
    get-or-create is made and no cache changes. *)
Theorem cached_record_two_calls self record s src func logger host tags :
  src_cache s !! LogRecord.pathname record = Some src →
  func_cache s !! func_key record src = Some func →
  logger_cache s !! self_logger_name self s = Some logger →
  host_cache s !! gethostname (world s) = Some host →
  Forall2 (λ n t, tag_cache s !! n = Some t) (default [] (LogRecord.tags record)) tags →
  async_emit_try self record s =
    (entry ← create_entry self record func logger host; add_tags self entry tags) s ∧
  let s' := (async_emit_try self record s).2 in
  (src_cache s' = src_cache s ∧ func_cache s' = func_cache s ∧
   logger_cache s' = logger_cache s ∧ host_cache s' = host_cache s ∧
   tag_cache s' = tag_cache s) ∧
  ∃ evs, calls s' = calls s ++ evs ∧ (length evs ≤ 2)%nat ∧
         Forall (λ e, is_get_or_create (ev_call e) = false) evs.
Proof.
  intros Hsrc Hfunc Hlogger Hhost Htags.
  assert (async_emit_try self record s =
          (entry ← create_entry self record func logger host; add_tags self entry tags) s)
    as Heq.
  { unfold async_emit_try.
    rewrite (bind_returns _ _ _ _ _ (resolve_source_hit self record s src Hsrc)).
    rewrite (bind_returns _ _ _ _ _ (resolve_function_hit self record src s func Hfunc)).
    rewrite (bind_returns _ _ _ _ _ (resolve_logger_hit self s logger Hlogger)).
    rewrite (bind_returns _ _ _ _ _ (resolve_host_hit self s host Hhost)).
    rewrite !bind_unfold.
    destruct (create_entry self record func logger host s) as [[e|entry] s5] eqn:H5; [done|].
    assert (tag_cache s5 = tag_cache s) as Ht.
    { unfold create_entry in H5. revert H5. run. intros H5.
      by apply call_caches in H5 as (?&?&?&?&?&?). }
    rewrite bind_unfold.
    rewrite (resolve_tags_hits self _ tags [] s5) by (by rewrite Ht). done. }
  split; [done|]. rewrite Heq. rewrite bind_unfold.
  destruct (create_entry self record func logger host s) as [[e|entry] s5] eqn:H5.
  - pose proof (create_entry_calls _ _ _ _ _ _ _ _ H5) as Hc.
    unfold create_entry in H5. revert H5. run. intros H5.
    apply call_caches in H5 as (?&?&?&?&?&?). simpl.
    split; [done|]. eexists. split; [done|]. split; [simpl; lia|by repeat constructor].
  - destruct (add_tags self entry tags s5) as [r s6] eqn:H6.
    pose proof (create_entry_calls _ _ _ _ _ _ _ _ H5) as Hc5.
    pose proof (add_tags_calls _ _ _ _ _ _ H6) as Hc6.
    unfold create_entry in H5. revert H5. run. intros H5.
    apply call_caches in H5 as (?&?&?&?&?&?).
    unfold add_tags in H6. revert H6. run. intros H6.
    apply call_caches in H6 as (?&?&?&?&?&?). simpl.
    split; [repeat split; congruence|].
    rewrite Hc6, Hc5, <- app_assoc. eexists. split; [done|].
    split; [simpl; lia|by repeat constructor].
Qed.

(** X10: a record that fails after its source row was resolved is
    reported, and the row stays in the cache with everything that was
    cached by then: what a failed record has resolved is not undone. *)
Theorem failed_record_keeps_rows self record s e s' src s1 :
  async_emit_try self record s = (inl e, s') →
  resolve_source self record s = (inr src, s1) →
  reported (async_emit self record s) = reported s ++ [(self, record)] ∧
  src_cache (async_emit self record s) !! LogRecord.pathname record = Some src ∧
  caches_kept s1 (async_emit self record s).
Proof.
  intros Htry Hsrc.
  assert (frame self s1 s') as Hrest.
  { revert Htry. unfold async_emit_try. rewrite (bind_returns _ _ _ _ _ Hsrc).
    rewrite bind_unfold.
    destruct (resolve_function self record src s1) as [[?|func] s2] eqn:H2;
      [intros [= <- <-]; by eapply resolve_function_frame|].
    apply resolve_function_frame in H2. rewrite bind_unfold.
    destruct (resolve_logger self s2) as [[?|logger] s3] eqn:H3;
      [intros [= <- <-]; eauto using frame_trans, resolve_logger_frame|].
    apply resolve_logger_frame in H3. rewrite bind_unfold.
    destruct (resolve_host self s3) as [[?|host] s4] eqn:H4;
      [intros [= <- <-]; eauto using frame_trans, resolve_host_frame|].
    apply resolve_host_frame in H4. rewrite bind_unfold.
    destruct (create_entry self record func logger host s4) as [[?|entry] s5] eqn:H5;
      [intros [= <- <-]; eauto 6 using frame_trans, create_entry_frame|].
    apply create_entry_frame in H5. rewrite bind_unfold.
    destruct (resolve_tags self (default [] (LogRecord.tags record)) [] s5)
      as [[?|tags] s6] eqn:H6;
      [intros [= <- <-]; eauto 7 using frame_trans, resolve_tags_frame|].
    apply resolve_tags_frame in H6.
    intros H7%add_tags_frame. eauto 8 using frame_trans. }
  pose proof (async_emit_try_frame _ _ _ _ _ Htry) as Hall.
  unfold async_emit. rewrite Htry. simpl.
  split; [by rewrite (frame_reported _ _ _ Hall)|]. split.
  - eapply lookup_weaken; [by eapply resolve_source_cached|]. by destruct Hrest.
  - by apply frame_caches_kept in Hrest.
Qed.

(** *** The calls of one record, in their order *)

Lemma side_calls_refl self s : side_calls self s s.
Proof. exists []. by rewrite app_nil_r. Qed.

Lemma side_calls_trans self s1 s2 s3 :
  side_calls self s1 s2 → side_calls self s2 s3 → side_calls self s1 s3.
Proof.
  intros (e1 & C1 & F1) (e2 & C2 & F2).
  exists (e1 ++ e2). rewrite C2, C1, app_assoc. split; [done|]. by apply Forall_app.
Qed.

Lemma side_calls_one self s s' c ok :
  is_side_call c = true →
  calls s' = calls s ∨ calls s' = calls s ++ [Ev self c ok] →
  side_calls self s s'.
Proof.
  intros Hc [H|H].
  - exists []. by rewrite app_nil_r.
  - eexists. split; [done|]. by repeat constructor.
Qed.

Ltac side_one H := eapply side_calls_one; [|exact H]; done.

Lemma resolve_tags_side self tags_names tags s r s' :
  resolve_tags self tags_names tags s = (r, s') → side_calls self s s'.
Proof.
  revert tags s. induction tags_names as [|tag_name rest IH]; intros tags s; simpl.
  - intros [= <- <-]. apply side_calls_refl.
  - rewrite bind_unfold.
    destruct (resolve_tag self tag_name s) as [[e|tag] s1] eqn:Htag;
      apply resolve_tag_calls in Htag.
    + intros [= <- <-]. side_one Htag.
    + intros Hrest. eapply side_calls_trans; [side_one Htag|by eapply IH].
Qed.

(** The call log of one record: side calls, then at most the creation of
    the entry, then side calls again; the entry is created if the record
    goes through. *)
Lemma async_emit_try_events self record s r s' :
  async_emit_try self record s = (r, s') →
  ∃ s4 s5 mid,
    side_calls self s s4 ∧ calls s5 = calls s4 ++ mid ∧ side_calls self s5 s' ∧
    (mid = [] ∧ is_inr r = false ∨
     ∃ function_id logger_id hostname_id ok,
       mid = [Ev self (entry_call record function_id logger_id hostname_id) ok] ∧
       (is_inr r = true → ok = true) ∧ (ok = false → is_inr r = false)).
Proof.
  assert (∀ s0 e, side_calls self s s0 →
            ∃ s4 s5 mid,
              side_calls self s s4 ∧ calls s5 = calls s4 ++ mid ∧ side_calls self s5 s0 ∧
              (mid = [] ∧ is_inr (inl e : exn + unit) = false ∨
               ∃ function_id logger_id hostname_id ok,
                 mid = [Ev self (entry_call record function_id logger_id hostname_id) ok] ∧
                 (is_inr (inl e : exn + unit) = true → ok = true) ∧
                 (ok = false → is_inr (inl e : exn + unit) = false))) as Hearly.
  { intros s0 e Hs0. exists s0, s0, []. rewrite app_nil_r.
    repeat split; [done|apply side_calls_refl|by left]. }
  unfold async_emit_try. rewrite bind_unfold.
  destruct (resolve_source self record s) as [[?|src] s1] eqn:H1;
    apply resolve_source_calls in H1;
    (assert (side_calls self s s1) as S1 by side_one H1);
    [intros [= <- <-]; by apply Hearly|].
  rewrite bind_unfold.
  destruct (resolve_function self record src s1) as [[?|func] s2] eqn:H2;
    apply resolve_function_calls in H2;
    (assert (side_calls self s s2) as S2
       by (eapply side_calls_trans; [exact S1|side_one H2]));
    [intros [= <- <-]; by apply Hearly|].
  rewrite bind_unfold.
  destruct (resolve_logger self s2) as [[?|logger] s3] eqn:H3;
    apply resolve_logger_calls in H3;
    (assert (side_calls self s s3) as S3
       by (eapply side_calls_trans; [exact S2|side_one H3]));
    [intros [= <- <-]; by apply Hearly|].
  rewrite bind_unfold.
  destruct (resolve_host self s3) as [[?|host] s4] eqn:H4;
    apply resolve_host_calls in H4;
    (assert (side_calls self s s4) as S4
       by (eapply side_calls_trans; [exact S3|side_one H4]));
    [intros [= <- <-]; by apply Hearly|].
  rewrite bind_unfold.
  destruct (create_entry self record func logger host s4) as [[?|entry] s5] eqn:H5;
    apply create_entry_calls in H5.
  { intros [= <- <-]. eexists s4, _, _. repeat split; [done|done|apply side_calls_refl|].
    right. eexists _, _, _, _. by repeat split. }
  rewrite bind_unfold.
  destruct (resolve_tags self (default [] (LogRecord.tags record)) [] s5)
    as [[?|tags] s6] eqn:H6; apply resolve_tags_side in H6.
  { intros [= <- <-]. eexists s4, s5, _. repeat split; [done|done|done|].
    right. eexists _, _, _, _. by repeat split. }
  intros H7. pose proof (add_tags_calls _ _ _ _ _ _ H7) as C7.
  eexists s4, s5, _. repeat split; [done|done| |].
  - eapply side_calls_trans; [done|]. eapply side_calls_one; [|by right]. done.
  - right. eexists _, _, _, _. split; [done|]. split; [done|]. done.
Qed.

Lemma created_entries_app s s' evs :
  calls s' = calls s ++ evs →
  created_entries s' =
  created_entries s ++ omap (λ e, if ev_ok e then entry_fields (ev_call e) else None) evs.
Proof. intros H. unfold created_entries. by rewrite H, omap_app. Qed.

Lemma side_calls_entries self s s' : side_calls self s s' → created_entries s' = created_entries s.
Proof.
  intros (evs & Hc & Hf). rewrite (created_entries_app _ _ _ Hc).
  rewrite <- (app_nil_r (created_entries s)) at 2. f_equal. clear Hc.
  induction Hf as [|e evs [_ He] _ IH]; [done|].
  change (e :: evs) with ([e] ++ evs). rewrite omap_app, IH, app_nil_r.
  cbn. destruct (ev_ok e); [|done]. by destruct (ev_call e).
Qed.

(** What one record adds to the entries and to the reports. *)
Lemma async_emit_entry self record s :
  ∃ (written : bool) rep,
    created_entries (async_emit self record s) =
      created_entries s ++ (if written then [record_fields record] else []) ∧
    reported (async_emit self record s) = reported s ++ rep ∧
    (rep = [] → written = true).
Proof.
  destruct (async_emit_cases self record s) as [(u & s' & Ht & ->)|(e & s' & Ht & ->)];
    pose proof (async_emit_try_frame _ _ _ _ _ Ht) as Hfr;
    apply async_emit_try_events in Ht
      as (s4 & s5 & mid & S4%side_calls_entries & Hmid & S5%side_calls_entries & Hcase).
  - exists true, []. rewrite app_nil_r. split; [|by destruct Hfr].
    destruct Hcase as [[_ ?]|(fid & lid & hid & ok & -> & Hok & _)]; [done|].
    rewrite (Hok eq_refl) in Hmid.
    by rewrite S5, (created_entries_app _ _ _ Hmid), S4.
  - destruct Hcase as [[-> _]|(fid & lid & hid & ok & -> & _)].
    + exists false, [(self, record)]. simpl. rewrite app_nil_r in *.
      rewrite (frame_reported _ _ _ Hfr). repeat split; [|done].
      change (created_entries (handleError self record s')) with (created_entries s').
      rewrite S5, <- S4. unfold created_entries. by rewrite Hmid.
    + exists ok, [(self, record)]. simpl.
      rewrite (frame_reported _ _ _ Hfr). repeat split; [|done].
      change (created_entries (handleError self record s')) with (created_entries s').
      rewrite S5, (created_entries_app _ _ _ Hmid), S4. simpl. by destruct ok.
Qed.

(** X11: the entries that a batch creates are created in the order of
    its records: they are the entries of some of the records, in the order
    of the batch, and of all the records if none was reported. *)
Theorem entries_in_batch_order self q s :
  ∃ written,
    written `sublist_of` q ∧
    created_entries (for_records self q s)
      = created_entries s ++ (record_fields <$> written) ∧
    (reported (for_records self q s) = reported s → written = q).
Proof.
  assert (∃ written rep,
            written `sublist_of` q ∧
            created_entries (for_records self q s)
              = created_entries s ++ (record_fields <$> written) ∧
            reported (for_records self q s) = reported s ++ rep ∧
            (rep = [] → written = q)) as (written & rep & Hsub & Hcr & Hrep & Hall).
  { revert s. induction q as [|record q IH]; intros s.
    - exists [], []. simpl. by rewrite !app_nil_r.
    - destruct (async_emit_entry self record s) as (b & rep1 & Hc1 & Hr1 & Hb).
      destruct (IH (async_emit self record s)) as (sub & rep2 & Hsub & Hc2 & Hr2 & Hall).
      change (for_records self (record :: q) s)
        with (for_records self q (async_emit self record s)).
      exists ((if b then [record] else []) ++ sub), (rep1 ++ rep2).
      rewrite Hc2, Hc1, Hr2, Hr1, fmap_app, <- !app_assoc.
      repeat split.
      + destruct b; simpl; [by apply sublist_skip|by apply sublist_cons].
      + by destruct b.
      + intros [-> ->]%app_eq_nil. by rewrite (Hb eq_refl), (Hall eq_refl).
  }
  exists written. repeat split; [done|done|].
  intros Heq. apply Hall. rewrite Heq in Hrep.
  rewrite <- (app_nil_r (reported s)) in Hrep at 1. by apply app_inv_head in Hrep.
Qed.

(** *** What lasts *)

Lemma emit_cls_queue self record s h :
  handlers s !! self = Some h →
  cls_queue (emit self record s) =
  match queue h with
  | Some _ => cls_queue s
  | None => cls_queue s ++ [record]
  end.
Proof.
  intros Hh. unfold emit. rewrite Hh.
  unfold queue_append, self_emitter, create_task, release, acquire, touch, upd_self.
  simpl. rewrite !list_lookup_alter_eq, Hh. simpl.
  destruct (queue h); simpl; rewrite ?list_lookup_alter_eq, ?Hh; simpl;
    by destruct (emitter h).
Qed.

Lemma log_emitter_step_cls_queue tid s : cls_queue (log_emitter_step tid s) = cls_queue s.
Proof.
  unfold log_emitter_step. repeat case_match; subst; simpl; try done;
    try apply async_emit_unchanged.
  all: match goal with
       | H : call _ _ _ _ = _ |- _ => by apply call_frame in H as []
       end.
Qed.

(** X12: nothing is ever taken out of the list bound to the class: over
    any run of the process it only gets longer, by the records pushed on
    handlers that have not yet bound a queue of their own. *)
Theorem class_queue_only_grows s s' :
  rtc step s s' → cls_queue s `prefix_of` cls_queue s'.
Proof.
  induction 1 as [|s1 s2 s3 Hstep _ IH]; [done|].
  etrans; [|exact IH]. destruct Hstep as [??????? s1|self record s1|tid s1|w s1].
  - done.
  - destruct (handlers s1 !! self) as [h|] eqn:Hh; [|unfold emit; by rewrite Hh].
    rewrite (emit_cls_queue _ _ _ _ Hh). destruct (queue h); [done|].
    by apply prefix_app_r.
  - by rewrite log_emitter_step_cls_queue.
  - done.
Qed.

Lemma kept_refl (h : Handler (Pool:=Pool)) : kept h h.
Proof. by repeat split. Qed.

Lemma kept_trans (h1 h2 h3 : Handler (Pool:=Pool)) : kept h1 h2 → kept h2 h3 → kept h1 h3.
Proof.
  intros (?&?&?&Hd1&Hq1) (?&?&?&Hd2&Hq2). repeat split; try congruence; eauto.
Qed.

Lemma all_kept_refl (l : list (Handler (Pool:=Pool))) : all_kept l l.
Proof. intros i h Hi. eauto using kept_refl. Qed.

Lemma all_kept_trans (l1 l2 l3 : list (Handler (Pool:=Pool))) :
  all_kept l1 l2 → all_kept l2 l3 → all_kept l1 l3.
Proof.
  intros H12 H23 i h Hi. destruct (H12 i h Hi) as (h2 & Hi2 & K12).
  destruct (H23 i h2 Hi2) as (h3 & Hi3 & K23). eauto using kept_trans.
Qed.

Lemma all_kept_alter (l : list (Handler (Pool:=Pool))) i f :
  (∀ h, l !! i = Some h → kept h (f h)) → all_kept l (alter f i l).
Proof.
  intros Hf j h Hj. destruct (decide (i = j)) as [->|Hne].
  - rewrite list_lookup_alter_eq, Hj. simpl. eauto.
  - rewrite list_lookup_alter_ne by done. eauto using kept_refl.
Qed.

Lemma all_kept_app (l l2 : list (Handler (Pool:=Pool))) : all_kept l (l ++ l2).
Proof. intros i h Hi. rewrite (lookup_app_l_Some _ _ _ _ Hi). eauto using kept_refl. Qed.

(** The updates of an instance that the code makes, but for the first
    binding of [db], keep what is kept. *)
Ltac kept_updates :=
  repeat (eapply all_kept_trans;
          [|apply all_kept_alter; intros ? _; repeat split; simpl; eauto]);
  try apply all_kept_refl.

Lemma emit_kept self record s : all_kept (handlers s) (handlers (emit self record s)).
Proof.
  unfold emit. destruct (handlers s !! self) as [h|] eqn:Hh; [|apply all_kept_refl].
  unfold queue_append, self_emitter, create_task, release, acquire, touch, upd_self.
  simpl. rewrite !list_lookup_alter_eq, Hh. simpl.
  destruct (queue h); simpl; rewrite ?list_lookup_alter_eq, ?Hh; simpl;
    destruct (emitter h); simpl; kept_updates.
Qed.

Lemma log_emitter_step_kept tid s :
  all_kept (handlers s) (handlers (log_emitter_step tid s)).
Proof.
  unfold log_emitter_step.
  destruct (tasks s !! tid) as [t|]; [|apply all_kept_refl].
  destruct (pc t) as [| | |q| | |e]; try apply all_kept_refl.
  - destruct (self_db (owner t) s) eqn:Hdb; [apply all_kept_refl|].
    destruct (call _ _ _ _) as [[e|pool] s1] eqn:Hcall;
      pose proof (call_frame _ _ _ _ _ _ Hcall) as [_ Hh _ _ _ _ _ _ _ _ _];
      unfold set_pc, release, acquire, upd_self in *; simpl in *; rewrite ?Hh.
    + kept_updates.
    + eapply all_kept_trans; [|apply all_kept_alter; intros ? _; by repeat split].
      eapply all_kept_trans; [apply (all_kept_alter _ (owner t)
                                       (λ h, set_lock (S (lock h)) h));
                               intros ? _; by repeat split|].
      apply all_kept_alter. intros h Hh'.
      rewrite list_lookup_alter_eq in Hh'. unfold self_db in Hdb.
      destruct (handlers s !! owner t) as [h0|]; [|done]. simpl in *.
      injection Hh' as <-. simpl. repeat split; simpl; try done. by rewrite Hdb.
  - case_bool_decide; simpl; apply all_kept_refl.
  - unfold set_pc, release, acquire, touch, upd_self. simpl. kept_updates.
  - destruct q as [i|[|record rest]].
    + destruct (cls_queue s !! i) as [r|]; [|apply all_kept_refl].
      simpl. destruct (async_emit_unchanged (owner t) r s) as (_ & -> & _).
      apply all_kept_refl.
    + apply all_kept_refl.
    + simpl. destruct (async_emit_unchanged (owner t) record s) as (_ & -> & _).
      apply all_kept_refl.
  - unfold set_pc, touch, upd_self. simpl. kept_updates.
Qed.

(** X13: an instance is never removed, and over any run of the process
    it keeps its name, its connection string and its level; once it has a
    connection it keeps that connection, and once it has bound a queue of
    its own it has one. *)
Theorem instance_attributes_kept s s' self h :
  rtc step s s' →
  handlers s !! self = Some h →
  ∃ h', handlers s' !! self = Some h' ∧ kept h h'.
Proof.
  intros Hsteps. revert h.
  induction Hsteps as [|s1 s2 s3 Hstep _ IH]; intros h Hh; [eauto using kept_refl|].
  assert (all_kept (handlers s1) (handlers s2)) as Hk.
  { destruct Hstep.
    - apply all_kept_app.
    - apply emit_kept.
    - apply log_emitter_step_kept.
    - apply all_kept_refl. }
  destruct (Hk self h Hh) as (h2 & Hh2 & K12).
  destruct (IH h2 Hh2) as (h3 & Hh3 & K23). eauto using kept_trans.
Qed.

(** *** One connection per handler *)

Lemma self_db_upd_self self self' (f : Handler → Handler) s :
  (∀ h, db (f h) = db h) → self_db self' (upd_self self f s) = self_db self' s.
Proof.
  intros Hf. unfold self_db, upd_self. simpl.
  destruct (decide (self = self')) as [->|Hne].
  - rewrite list_lookup_alter_eq. destruct (handlers s !! self'); simpl; [apply Hf|done].
  - by rewrite list_lookup_alter_ne.
Qed.

Lemma self_db_set_db self self' v s :
  self_db self' (upd_self self (set_db v) s) =
  if decide (self = self')
  then (match handlers s !! self with Some _ => v | None => None end)
  else self_db self' s.
Proof.
  unfold self_db, upd_self. simpl. case_decide as Heq.
  - subst. rewrite list_lookup_alter_eq. by destruct (handlers s !! self').
  - by rewrite list_lookup_alter_ne.
Qed.

Lemma self_db_handlers self s s' : handlers s' = handlers s → self_db self s' = self_db self s.
Proof. unfold self_db. by intros ->. Qed.

Lemma connects_calls self s s' : calls s' = calls s → connects self s' = connects self s.
Proof. unfold connects. by intros ->. Qed.

Lemma connects_app self s s' evs :
  calls s' = calls s ++ evs →
  connects self s' =
  connects self s ++
    filter (λ e, ev_self e = self ∧ is_connect (ev_call e) = true ∧ ev_ok e = true) evs.
Proof. intros H. unfold connects. by rewrite H, filter_app. Qed.

Lemma side_calls_connects self self' s s' :
  side_calls self s s' → connects self' s' = connects self' s.
Proof.
  intros (evs & Hc & Hf). rewrite (connects_app _ _ _ _ Hc).
  rewrite filter_none, app_nil_r; [done|].
  eapply Forall_impl; [done|]. intros e [_ He] (_ & Hcon & _).
  destruct (ev_call e); discriminate.
Qed.

Lemma async_emit_connects self self' record s :
  connects self' (async_emit self record s) = connects self' s.
Proof.
  destruct (async_emit_cases self record s) as [(u & s' & Ht & ->)|(e & s' & Ht & ->)];
    apply async_emit_try_events in Ht as (s4 & s5 & mid & S4 & Hmid & S5 & Hcase);
    change (connects self' (handleError self record s')) with (connects self' s');
    rewrite (side_calls_connects _ _ _ _ S5), (connects_app _ _ _ _ Hmid),
      (side_calls_connects _ _ _ _ S4);
    destruct Hcase as [[-> _]|(fid & lid & hid & ok & -> & _)];
    rewrite ?filter_nil, ?app_nil_r; try done;
    rewrite filter_cons, decide_False, filter_nil, app_nil_r; try done;
    by intros (_ & ? & _).
Qed.

Lemma owners_set_pc tid p (l : list Task) (n : nat) :
  Forall (λ t, (owner t < n)%nat) l →
  Forall (λ t, (owner t < n)%nat) (alter (λ t, mkTask (owner t) p) tid l).
Proof.
  intros Hf. apply Forall_lookup. intros i t Hi.
  destruct (decide (tid = i)) as [->|Hne].
  - rewrite list_lookup_alter_eq in Hi.
    destruct (l !! i) as [t0|] eqn:H0; [|done]. injection Hi as <-. simpl.
    by eapply (Forall_lookup_1 _ _ _ _ Hf).
  - rewrite list_lookup_alter_ne in Hi by done. by eapply (Forall_lookup_1 _ _ _ _ Hf).
Qed.

Lemma owners_kept (l l' : list (Handler (Pool:=Pool))) (ts : list Task) :
  all_kept l l' →
  Forall (λ t, (owner t < length l)%nat) ts → Forall (λ t, (owner t < length l')%nat) ts.
Proof.
  intros Hk Hf. eapply Forall_impl; [exact Hf|]. intros t Ht. simpl in Ht.
  apply lookup_lt_is_Some in Ht as [h Hh].
  destruct (Hk _ _ Hh) as (h' & Hh' & _). by eapply lookup_lt_Some.
Qed.

Lemma connected_once_initial (w : W) : connected_once (initial (Pool:=Pool) w).
Proof. split; [constructor|]. intros self. by unfold connects, self_db. Qed.

Lemma connected_once_init name db_name db_user db_password db_host db_port level s :
  connected_once s →
  connected_once (init name db_name db_user db_password db_host db_port level s).
Proof.
  intros [Hown Hcon]. split.
  - eapply owners_kept; [apply all_kept_app|done].
  - intros self. specialize (Hcon self). unfold connects, self_db, init in *. simpl.
    destruct (handlers s !! self) as [h|] eqn:Hh.
    + by rewrite (lookup_app_l_Some _ _ _ _ Hh).
    + simpl in Hcon. rewrite Hcon.
      destruct (decide (self = length (handlers s))) as [->|Hne].
      * by rewrite lookup_app_r, Nat.sub_diag.
      * rewrite lookup_ge_None_2; [done|].
        apply lookup_ge_None in Hh. rewrite length_app. simpl. lia.
Qed.

Lemma connected_once_emit self record s :
  connected_once s → connected_once (emit self record s).
Proof.
  intros [Hown Hcon].
  destruct (handlers s !! self) as [h|] eqn:Hh; [|unfold emit; by rewrite Hh].
  destruct (emit_effect self record s h Hh) as (Ht & _).
  destruct (emit_outside self record s) as (_ & Hc & _).
  split.
  - eapply owners_kept; [apply emit_kept|]. rewrite Ht.
    destruct (emitter h); [done|]. apply Forall_app. split; [done|].
    constructor; [|constructor]. simpl. by eapply lookup_lt_Some.
  - intros self'. by rewrite (connects_calls _ _ _ Hc), emit_db.
Qed.

Lemma connected_once_task tid s :
  connected_once s → connected_once (log_emitter_step tid s).
Proof.
  intros [Hown Hcon]. split.
  { eapply owners_kept; [apply log_emitter_step_kept|].
    destruct (tasks s !! tid) as [t|] eqn:Ht;
      [|unfold log_emitter_step; by rewrite Ht].
    destruct (log_emitter_step_shape tid s t Ht)
      as [[_ ->]|(_ & p & s1 & -> & Htk & _)]; [done|].
    simpl. rewrite Htk. by apply owners_set_pc. }
  intros self. specialize (Hcon self). unfold log_emitter_step.
  destruct (tasks s !! tid) as [t|] eqn:Ht; [|done].
  destruct (pc t) as [| | |q| | |e]; try done.
  - destruct (self_db (owner t) s) eqn:Hdb; [done|].
    destruct (call _ _ _ _) as [[e|pool] s1] eqn:Hcall;
      pose proof (call_calls _ _ _ _ _ _ Hcall) as Hc;
      pose proof (call_frame _ _ _ _ _ _ Hcall) as [_ Hh _ _ _ _ _ _ _ _ _].
    + change (connects self (set_pc tid (Raised e) s1)) with (connects self s1).
      change (self_db self (set_pc tid (Raised e) s1)) with (self_db self s1).
      rewrite (connects_app _ _ _ _ Hc), filter_cons, decide_False, filter_nil, app_nil_r
        by (simpl; by intros (_ & _ & ?)).
      rewrite (self_db_handlers _ _ _ Hh).
      unfold acquire. by rewrite self_db_upd_self.
    + change (connects self (set_pc tid AtWhile ?x)) with (connects self s1).
      change (self_db self (set_pc tid AtWhile ?x)) with (self_db self x).
      unfold release. rewrite self_db_upd_self, self_db_set_db by done.
      rewrite Hh.
      change (handlers (acquire (owner t) s))
        with (alter (λ h, set_lock (S (lock h)) h) (owner t) (handlers s)).
      rewrite list_lookup_alter_eq.
      rewrite (connects_app _ _ _ _ Hc), filter_cons, filter_nil. simpl.
      assert (is_Some (handlers s !! owner t)) as [h0 Hh0].
      { apply lookup_lt_is_Some. by eapply (Forall_lookup_1 _ _ _ _ Hown). }
      rewrite Hh0. simpl.
      change (connects self (acquire (owner t) s)) with (connects self s).
      destruct (decide (owner t = self)) as [<-|Hne].
      * rewrite decide_True by done. rewrite Hdb in Hcon.
        destruct (connects (owner t) s); [done|discriminate].
      * rewrite decide_False, app_nil_r by (by intros [? _]).
        rewrite (self_db_handlers _ _ _ Hh).
        unfold acquire. by rewrite self_db_upd_self.
  - case_bool_decide; done.
  - change (connects self (set_pc tid ?p ?x)) with (connects self s).
    change (self_db self (set_pc tid ?p ?x)) with (self_db self x).
    unfold release, acquire.
    repeat first
      [ rewrite self_db_upd_self by done
      | progress change (self_db ?a (touch ?b ?c ?d ?y)) with (self_db a y) ].
    done.
  - destruct q as [i|[|record rest]]; try done.
    + destruct (cls_queue s !! i) as [r|]; [|done].
      change (connects self (set_pc tid ?p ?x)) with (connects self x).
      change (self_db self (set_pc tid ?p ?x)) with (self_db self x).
      rewrite async_emit_connects.
      by rewrite (self_db_handlers _ _ _ (proj1 (proj2 (async_emit_unchanged _ r s)))).
    + change (connects self (set_pc tid ?p ?x)) with (connects self x).
      change (self_db self (set_pc tid ?p ?x)) with (self_db self x).
      rewrite async_emit_connects.
      by rewrite (self_db_handlers _ _ _ (proj1 (proj2 (async_emit_unchanged _ record s)))).
  - change (connects self (set_pc tid ?p ?x)) with (connects self s).
    change (self_db self (set_pc tid ?p ?x)) with (self_db self x).
    rewrite self_db_upd_self by done.
    by change (self_db self (touch ?b ?c ?d ?y)) with (self_db self y).
Qed.

(** X14: in every state the process can reach, a handler has a
    connection exactly if one connect of its own has returned: it connects
    once and not again, and its tasks are tasks of instances that exist. *)
Theorem connects_once s : reachable s → connected_once s.
Proof.
  intros [w Hw]. remember (initial w) as s0 eqn:Hs0.
  assert (connected_once s0) as H0 by (subst; apply connected_once_initial).
  clear Hs0. induction Hw as [|s1 s2 s3 Hstep _ IH]; [done|].
  apply IH. destruct Hstep.
  - by apply connected_once_init.
  - by apply connected_once_emit.
  - by apply connected_once_task.
  - done.
Qed.

(** *** The loop of the task and [for_records] *)

Local Abbreviation St := (State (W:=W) (Pool:=Pool)).

Lemma tasks_blind_ret {A} (x : A) : tasks_blind (mret x : M St A).
Proof. by intros f s. Qed.

Lemma tasks_blind_bind {A B} (m : M St A) (k : A → M St B) :
  tasks_blind m → (∀ x, tasks_blind (k x)) → tasks_blind (m ≫= k).
Proof.
  intros Hm Hk f s. rewrite !bind_unfold, Hm.
  destruct (m s) as [[e|x] s1]; [done|]. apply Hk.
Qed.

Lemma tasks_blind_gets {A} (g : St → A) :
  (∀ f s, g (set_tasks f s) = g s) → tasks_blind (gets g).
Proof. intros Hg f s. unfold gets. by rewrite Hg. Qed.

Lemma tasks_blind_call {A} self c (op : M W A) : tasks_blind (call self c op : M St A).
Proof. intros f s. unfold call. simpl. by destruct (op (world s)). Qed.

Lemma tasks_blind_resolve_tags self tags_names tags :
  tasks_blind (resolve_tags self tags_names tags).
Proof.
  revert tags. induction tags_names as [|n rest IH]; intros tags; simpl.
  - apply tasks_blind_ret.
  - apply tasks_blind_bind; [|done]. unfold resolve_tag.
    apply tasks_blind_bind; [by apply tasks_blind_gets|]. intros cache.
    destruct (cache !! n); [apply tasks_blind_ret|].
    repeat first
      [ apply tasks_blind_bind; [|intros ?]
      | apply tasks_blind_call | apply tasks_blind_ret
      | by apply tasks_blind_gets | by intros ? ? ].
Qed.

Lemma tasks_blind_async_emit_try self record : tasks_blind (async_emit_try self record).
Proof.
  unfold async_emit_try, resolve_source, resolve_function, resolve_logger, resolve_host,
    create_entry, add_tags.
  repeat first
    [ apply tasks_blind_resolve_tags
    | apply tasks_blind_bind; [|intros ?]
    | apply tasks_blind_call | apply tasks_blind_ret
    | by apply tasks_blind_gets | by intros ? ?
    | match goal with |- tasks_blind (match ?x with _ => _ end) => destruct x end ].
Qed.

Lemma async_emit_set_tasks self record f s :
  async_emit self record (set_tasks f s) = set_tasks f (async_emit self record s).
Proof.
  unfold async_emit. rewrite tasks_blind_async_emit_try.
  by destruct (async_emit_try self record s) as [[e|u] s1].
Qed.

Lemma for_records_set_tasks self q f s :
  for_records self q (set_tasks f s) = set_tasks f (for_records self q s).
Proof.
  revert s. induction q as [|r q IH]; intros s; [done|].
  simpl. by rewrite async_emit_set_tasks, IH.
Qed.

Lemma set_pc_set_pc tid p p' s : set_pc tid p' (set_pc tid p s) = set_pc tid p' s.
Proof.
  unfold set_pc. destruct s. unfold set_tasks. simpl. f_equal.
  rewrite list_alter_alter_eq. by apply list_alter_ext.
Qed.

Lemma for_loop_steps tid self q s l :
  tasks s !! tid = Some (mkTask self (AtFor q)) →
  l = match q with BOwn l => l | BShared i => drop i (cls_queue s) end →
  Nat.iter (S (length l)) (log_emitter_step tid) s = set_pc tid AtWhile (for_records self l s).
Proof.
  intros Ht Hl.
  revert q s Ht Hl. induction l as [|r rest IH]; intros q s Ht Hl.
  - simpl. unfold log_emitter_step. rewrite Ht. simpl.
    destruct q as [i|l]; [|by subst].
    destruct (cls_queue s !! i) as [r|] eqn:Hi; [|done].
    by rewrite (drop_S _ _ _ Hi) in Hl.
  - change (length (r :: rest)) with (S (length rest)).
    rewrite Nat.iter_succ_r.
    assert (∃ q', log_emitter_step tid s = set_pc tid (AtFor q') (async_emit self r s) ∧
                  rest = match q' with
                         | BOwn l => l
                         | BShared i => drop i (cls_queue s)
                         end) as (q' & -> & Hq').
    { unfold log_emitter_step. rewrite Ht. simpl. destruct q as [i|l].
      - destruct (cls_queue s !! i) as [r'|] eqn:Hi.
        + rewrite (drop_S _ _ _ Hi) in Hl. injection Hl as -> ->.
          by exists (BShared (S i)).
        + apply lookup_ge_None in Hi. by rewrite drop_ge in Hl.
      - subst l. by exists (BOwn rest). }
    destruct (async_emit_unchanged self r s) as (Hcq & _ & Htk & _).
    rewrite (IH q').
    + unfold set_pc at 2. rewrite for_records_set_tasks.
      apply (set_pc_set_pc tid (AtFor q') AtWhile).
    + unfold set_pc. simpl. rewrite Htk, list_lookup_alter_eq, Ht. done.
    + unfold set_pc. simpl. by rewrite Hcq.
Qed.

(** X15: the [for] loop of the task, run step by step with nothing in
    between, writes the batch as [for_records] does and comes back to the
    test of the [while]: the batch is the list taken at the exchange, or,
    for a handler that had no list of its own, the class-level list from
    the place the loop has come to. *)
Theorem for_loop_is_for_records tid self q s :
  tasks s !! tid = Some (mkTask self (AtFor q)) →
  let batch := match q with BOwn l => l | BShared i => drop i (cls_queue s) end in
  Nat.iter (S (length batch)) (log_emitter_step tid) s =
  set_pc tid AtWhile (for_records self batch s).
Proof. intros Ht batch. by apply (for_loop_steps tid self q). Qed.

(** *** A task left alone drains the queue and ends *)

Lemma same_outside_refl s : same_outside s s.
Proof. by repeat split. Qed.

Lemma same_outside_trans s1 s2 s3 :
  same_outside s1 s2 → same_outside s2 s3 → same_outside s1 s3.
Proof.
  intros (?&?&?&?&?&?&?&?&Ha) (?&?&?&?&?&?&?&?&Hb).
  repeat split; try congruence.
  - destruct (Ha self), (Hb self). congruence.
  - destruct (Ha self), (Hb self). congruence.
Qed.

Lemma self_logger_name_upd_self self self' (f : Handler → Handler) s :
  (∀ h, logger_name (f h) = logger_name h) →
  self_logger_name self' (upd_self self f s) = self_logger_name self' s.
Proof.
  intros Hf. unfold self_logger_name, upd_self. simpl.
  destruct (decide (self = self')) as [->|Hne].
  - rewrite list_lookup_alter_eq. destruct (handlers s !! self'); simpl; [by rewrite Hf|done].
  - by rewrite list_lookup_alter_ne.
Qed.

Lemma same_outside_upd_self self (f : Handler → Handler) s :
  (∀ h, db (f h) = db h) → (∀ h, logger_name (f h) = logger_name h) →
  same_outside s (upd_self self f s).
Proof.
  intros Hd Hn. repeat split; try done.
  - symmetry. by apply self_db_upd_self.
  - symmetry. by apply self_logger_name_upd_self.
Qed.

Lemma respects_ret {A} (x : A) : respects (mret x : M St A).
Proof. by intros s1 s2 Hs. Qed.

Lemma respects_bind {A B} (m : M St A) (k : A → M St B) :
  respects m → (∀ x, respects (k x)) → respects (m ≫= k).
Proof.
  intros Hm Hk s1 s2 Hs. rewrite !bind_unfold.
  destruct (Hm s1 s2 Hs) as [Hr Hs'].
  destruct (m s1) as [[e|x] s1'], (m s2) as [[e'|x'] s2']; simpl in *; simplify_eq; [done|].
  by apply Hk.
Qed.

Lemma respects_gets {A} (g : St → A) :
  (∀ s1 s2, same_outside s1 s2 → g s1 = g s2) → respects (gets g).
Proof. intros Hg s1 s2 Hs. unfold gets. simpl. split; [f_equal; by apply Hg|done]. Qed.

Lemma respects_modify (f : St → St) :
  (∀ s1 s2, same_outside s1 s2 → same_outside (f s1) (f s2)) → respects (modify f).
Proof. intros Hf s1 s2 Hs. unfold modify. simpl. split; [done|by apply Hf]. Qed.

Lemma respects_call {A} self c (op : M W A) : respects (call self c op : M St A).
Proof.
  intros s1 s2 (Hw&Hc&Hr&H1&H2&H3&H4&H5&Hself). unfold call. rewrite Hw.
  destruct (op (world s2)) as [r w]. simpl. split; [done|].
  repeat split; simpl; try done; try apply Hself. by rewrite Hc.
Qed.

Ltac same_outside_gets :=
  let Hself := fresh in
  intros ? ? (?&?&?&?&?&?&?&?&Hself);
  first [ done | congruence | apply Hself
        | repeat split; simpl; try congruence; apply Hself ].

Ltac respects_steps :=
  repeat first
    [ apply respects_bind; [|intros ?]
    | apply respects_call | apply respects_ret
    | apply respects_gets; same_outside_gets
    | apply respects_modify; same_outside_gets
    | match goal with |- respects (match ?x with _ => _ end) => destruct x end ].

Lemma respects_resolve_tags self tags_names tags :
  respects (resolve_tags self tags_names tags).
Proof.
  revert tags. induction tags_names as [|n rest IH]; intros tags; simpl.
  - apply respects_ret.
  - apply respects_bind; [|done]. unfold resolve_tag. respects_steps.
Qed.

Lemma respects_async_emit_try self record : respects (async_emit_try self record).
Proof.
  unfold async_emit_try, resolve_source, resolve_function, resolve_logger, resolve_host,
    create_entry, add_tags.
  repeat first [ apply respects_resolve_tags | progress respects_steps ].
Qed.

Lemma same_outside_async_emit self record s1 s2 :
  same_outside s1 s2 → same_outside (async_emit self record s1) (async_emit self record s2).
Proof.
  intros Hs. destruct (respects_async_emit_try self record s1 s2 Hs) as [Hr Hs'].
  unfold async_emit.
  destruct (async_emit_try self record s1) as [[e|u] s1'],
           (async_emit_try self record s2) as [[e'|u'] s2']; simpl in *; simplify_eq; [|done].
  destruct Hs' as (?&?&Hrep&?&?&?&?&?&Hself).
  repeat split; simpl; try done; try apply Hself. by rewrite Hrep.
Qed.

Lemma same_outside_for_records self q s1 s2 :
  same_outside s1 s2 → same_outside (for_records self q s1) (for_records self q s2).
Proof.
  revert s1 s2. induction q as [|r q IH]; intros s1 s2 Hs; [done|].
  simpl. by apply IH, same_outside_async_emit.
Qed.

Lemma for_records_unchanged self q s :
  cls_queue (for_records self q s) = cls_queue s ∧
  handlers (for_records self q s) = handlers s ∧
  tasks (for_records self q s) = tasks s.
Proof.
  revert s. induction q as [|r q IH]; intros s; [done|].
  simpl. destruct (IH (async_emit self r s)) as (-> & -> & ->).
  by destruct (async_emit_unchanged self r s) as (-> & -> & -> & _).
Qed.

Lemma step_at_while tid self s :
  tasks s !! tid = Some (mkTask self AtWhile) →
  log_emitter_step tid s =
  set_pc tid (match self_queue self s with [] => AtClear | _ => AtSwap end)
    (touch self AQueue ARead s).
Proof.
  intros Ht. unfold log_emitter_step. rewrite Ht. simpl.
  change (self_queue self (touch self AQueue ARead s)) with (self_queue self s).
  destruct (self_queue self s); case_bool_decide as Hlen; simpl in Hlen; (done || lia).
Qed.

Lemma step_at_swap tid self s h :
  tasks s !! tid = Some (mkTask self AtSwap) →
  handlers s !! self = Some h →
  let s1 := log_emitter_step tid s in
  ∃ b,
    tasks s1 !! tid = Some (mkTask self (AtFor b)) ∧
    self_queue self s = match b with BOwn l => l | BShared i => drop i (cls_queue s1) end ∧
    handlers s1 !! self = Some (set_queue (Some []) h) ∧
    same_outside s s1.
Proof.
  intros Ht Hh s1. subst s1. unfold log_emitter_step. rewrite Ht. simpl.
  unfold release, acquire, touch, upd_self, self_queue. simpl.
  rewrite !list_lookup_alter_eq, Hh. simpl.
  eexists. split; [by rewrite Ht|]. split; [|split].
  - by destruct (queue h).
  - done.
  - repeat split; simpl; try done.
    + unfold self_db. simpl.
      destruct (decide (self0 = self)) as [->|Hne].
      * by rewrite !list_lookup_alter_eq, Hh.
      * by rewrite !list_lookup_alter_ne.
    + unfold self_logger_name. simpl.
      destruct (decide (self0 = self)) as [->|Hne].
      * by rewrite !list_lookup_alter_eq, Hh.
      * by rewrite !list_lookup_alter_ne.
Qed.

Lemma step_at_clear tid self s h :
  tasks s !! tid = Some (mkTask self AtClear) →
  handlers s !! self = Some h →
  let s1 := log_emitter_step tid s in
  tasks s1 !! tid = Some (mkTask self Returned) ∧
  self_emitter self s1 = None ∧
  self_queue self s1 = self_queue self s ∧
  same_outside s s1.
Proof.
  intros Ht Hh s1. subst s1. unfold log_emitter_step. rewrite Ht. simpl.
  split; [by rewrite list_lookup_alter_eq, Ht|].
  split; [unfold self_emitter; simpl; by rewrite list_lookup_alter_eq, Hh|].
  split; [unfold self_queue; simpl; by rewrite list_lookup_alter_eq, Hh|].
  change (same_outside s (upd_self self (set_emitter None) s)).
  by apply same_outside_upd_self.
Qed.

Lemma empty_queue_ends tid self s h :
  tasks s !! tid = Some (mkTask self AtWhile) →
  handlers s !! self = Some h →
  self_queue self s = [] →
  let s' := Nat.iter 2 (log_emitter_step tid) s in
  tasks s' !! tid = Some (mkTask self Returned) ∧
  self_emitter self s' = None ∧
  self_queue self s' = [] ∧
  same_outside s s'.
Proof.
  intros Ht Hh Hq. simpl. rewrite (step_at_while _ _ _ Ht), Hq.
  destruct (step_at_clear tid self (set_pc tid AtClear (touch self AQueue ARead s)) h)
    as (H1 & H2 & H3 & H4).
  - simpl. by rewrite list_lookup_alter_eq, Ht.
  - done.
  - split; [exact H1|]. split; [exact H2|]. split; [by rewrite H3|].
    eapply same_outside_trans; [|exact H4]. by repeat split.
Qed.

Lemma drains tid self s h :
  tasks s !! tid = Some (mkTask self AtWhile) →
  handlers s !! self = Some h →
  let q := self_queue self s in
  let s' := Nat.iter (match q with [] => 2 | _ => length q + 5 end) (log_emitter_step tid) s in
  tasks s' !! tid = Some (mkTask self Returned) ∧
  self_emitter self s' = None ∧
  self_queue self s' = [] ∧
  same_outside (for_records self q s) s'.
Proof.
  intros Ht Hh q s'. subst q s'.
  destruct (self_queue self s) as [|r q] eqn:Hq.
  { by apply (empty_queue_ends tid self s h). }
  replace (length (r :: q) + 5)%nat with (2 + (S (length (r :: q)) + 2))%nat by lia.
  rewrite !Nat.iter_add.
  assert (Nat.iter 2 (log_emitter_step tid) s =
          log_emitter_step tid (set_pc tid AtSwap (touch self AQueue ARead s))) as ->.
  { simpl. by rewrite (step_at_while _ _ _ Ht), Hq. }
  destruct (step_at_swap tid self (set_pc tid AtSwap (touch self AQueue ARead s)) h)
    as (b & HtB & Hb & HhB & HoB).
  { simpl. by rewrite list_lookup_alter_eq, Ht. }
  { done. }
  change (self_queue self (set_pc tid AtSwap (touch self AQueue ARead s)))
    with (self_queue self s) in Hb. rewrite Hq in Hb.
  set (sB := log_emitter_step tid (set_pc tid AtSwap (touch self AQueue ARead s))) in *.
  rewrite (for_loop_steps tid self b sB (r :: q) HtB Hb).
  destruct (for_records_unchanged self (r :: q) sB) as (_ & HhC & HtC).
  remember (for_records self (r :: q) sB) as sC eqn:HsC.
  destruct (empty_queue_ends tid self (set_pc tid AtWhile sC) (set_queue (Some []) h))
    as (H1 & H2 & H3 & H4).
  - simpl. by rewrite HtC, list_lookup_alter_eq, HtB.
  - simpl. by rewrite HhC.
  - unfold self_queue. simpl. by rewrite HhC, HhB.
  - split; [exact H1|]. split; [exact H2|]. split; [exact H3|].
    eapply same_outside_trans; [|exact H4]. subst sC.
    eapply same_outside_trans;
      [apply same_outside_for_records;
       eapply same_outside_trans; [|exact HoB]; by repeat split|].
    by repeat split.
Qed.

(** X16: a task at the test of its [while] that is left alone comes to
    its end: after two steps if the queue is empty, after five steps and
    one per record otherwise.  It then has returned, [emitter] is [None]
    again and the handler's queue is empty, and towards the storage it has
    done what [for_records] does with the queue as it found it. *)
Theorem task_drains_and_ends tid self s h :
  tasks s !! tid = Some (mkTask self AtWhile) →
  handlers s !! self = Some h →
  let q := self_queue self s in
  let s' := Nat.iter (match q with [] => 2 | _ => length q + 5 end) (log_emitter_step tid) s in
  tasks s' !! tid = Some (mkTask self Returned) ∧
  self_emitter self s' = None ∧
  self_queue self s' = [] ∧
  same_outside (for_records self q s) s'.
Proof. apply drains. Qed.

Lemma emit_logger_name self self' record s :
  self_logger_name self' (emit self record s) = self_logger_name self' s.
Proof.
  unfold emit. destruct (handlers s !! self) as [h|] eqn:Hh; [|done].
  unfold queue_append, self_logger_name, create_task, release, acquire, touch, upd_self.
  simpl. destruct (decide (self = self')) as [->|Hne].
  - repeat case_match; simpl; rewrite ?list_lookup_alter_eq, ?Hh; simpl;
      rewrite ?list_lookup_alter_eq, ?Hh; by simpl.
  - repeat case_match; simpl; by rewrite ?list_lookup_alter_ne by done.
Qed.

Lemma same_outside_emit self record s : same_outside s (emit self record s).
Proof.
  destruct (emit_outside self record s) as (?&?&?&?&?&?&?&?).
  repeat split; try done.
  - by rewrite emit_db.
  - by rewrite emit_logger_name.
Qed.

(** X17: a record pushed on a handler that is connected and idle, with
    an empty queue, is written by the task that the push creates, and the
    handler is idle again: seven steps of that task bring it to its end,
    with [emitter] cleared and the queue empty, and towards the storage
    they do what [async_emit] does with the record, once. *)
Theorem push_and_drain self record s h pool :
  handlers s !! self = Some h →
  db h = Some pool →
  emitter h = None →
  self_queue self s = [] →
  let tid := length (tasks s) in
  let s' := Nat.iter 7 (log_emitter_step tid) (emit self record s) in
  tasks s' !! tid = Some (mkTask self Returned) ∧
  self_emitter self s' = None ∧
  self_queue self s' = [] ∧
  same_outside (async_emit self record s) s'.
Proof.
  intros Hh Hdb Hem Hq tid s'. subst s'.
  destruct (emit_effect self record s h Hh) as (Ht & _ & Hq' & _ & Hl).
  rewrite Hem in Ht. rewrite Hq in Hq'. simpl in Hq'.
  assert (tasks (emit self record s) !! tid = Some (mkTask self AtStart)) as Ht0.
  { rewrite Ht. subst tid. by rewrite lookup_app_r, Nat.sub_diag. }
  assert (self_db self (emit self record s) = Some pool) as Hdb'.
  { rewrite emit_db. unfold self_db. by rewrite Hh. }
  destruct (handlers (emit self record s) !! self) as [h1|] eqn:Hh1; [|done].
  pose proof (same_outside_emit self record s) as Hso.
  remember (emit self record s) as s0 eqn:Hs0. clear Hs0.
  change 7%nat with (6 + 1)%nat. rewrite Nat.iter_add.
  assert (Nat.iter 1 (log_emitter_step tid) s0 = set_pc tid AtWhile s0) as ->.
  { simpl. unfold log_emitter_step. rewrite Ht0. simpl. by rewrite Hdb'. }
  assert (tasks (set_pc tid AtWhile s0) !! tid = Some (mkTask self AtWhile)) as HtW.
  { simpl. by rewrite list_lookup_alter_eq, Ht0. }
  pose proof (drains tid self (set_pc tid AtWhile s0) h1 HtW Hh1) as Hd.
  cbv zeta in Hd.
  change (self_queue self (set_pc tid AtWhile s0)) with (self_queue self s0) in Hd.
  rewrite Hq' in Hd. destruct Hd as (H1 & H2 & H3 & H4).
  split; [exact H1|]. split; [exact H2|]. split; [exact H3|].
  eapply same_outside_trans; [|exact H4].
  apply (same_outside_async_emit self record s (set_pc tid AtWhile s0)).
  eapply same_outside_trans; [exact Hso|]. by repeat split.
Qed.

End HandlerFacts.

(** ** The scenarios *)

(** C3: the queue is a list bound to the class, which all instances
    append to until they rebind their own [queue], and which the exchange
    of lines 76-77 never empties.  Two handlers are given one record each;
    the record given to the first is drained by both, and three entries are
    written for two records. *)
Theorem shared_queue_drained_twice :
  cls_queue after_second = [rec_one; rec_two] ∧
  LogEntry.message <$> Mem.entries (world after_second) = ["one"; "one"; "two"] ∧
  Ev 0 (entry_call rec_one 2 3 4) true ∈ calls after_second ∧
  Ev 1 (entry_call rec_one 2 7 4) true ∈ calls after_second ∧
  reported after_second = [].
Proof.
  split; [by vm_compute|]. split; [by vm_compute|].
  split; [apply (bool_decide_unpack _); by vm_compute|].
  split; [apply (bool_decide_unpack _); by vm_compute|by vm_compute].
Qed.

(** C4: the accesses of one handler to [queue] and [emitter] while it is
    given one record and its task runs to the end.  The push holds the
    lock throughout; the task reads the length of the queue, and in the
    end clears [emitter], without it. *)
Theorem emitter_cleared_without_lock :
  accesses second_done =
  [Acc 0 AQueue AWrite true; Acc 0 AEmitter ARead true; Acc 0 AEmitter AWrite true;
   Acc 0 AQueue ARead false;
   Acc 0 AQueue ARead true; Acc 0 AQueue AWrite true;
   Acc 0 AQueue ARead false;
   Acc 0 AEmitter AWrite false] ∧
  self_emitter 0 second_done = None ∧
  lock <$> handlers second_done !! 0%nat = Some 0%nat.
Proof. vm_compute. done. Qed.

(** What the unlocked clear can cost where pushes come from a further
    thread: a record pushed between the last test of the queue and the
    clear is left in the queue of a handler that has no task. *)
Lemma record_stranded :
  rtc step one_handler stranded ∧
  self_queue 0 stranded = [rec_two] ∧
  self_emitter 0 stranded = None ∧
  live_tasks 0 stranded = [] ∧
  LogEntry.message <$> Mem.entries (world stranded) = ["one"].
Proof.
  split.
  - unfold stranded, before_clear. simpl.
    eapply rtc_l; [apply (step_emit 0 rec_one)|].
    do 6 (eapply rtc_l; [apply (step_task 0)|]).
    eapply rtc_l; [apply (step_emit 0 rec_two)|].
    eapply rtc_l; [apply (step_task 0)|]. apply rtc_refl.
  - vm_compute. done.
Qed.

(** C6 (as stated) fails: the handler is named [app], the record comes
    from the logger [app.views]; the logger row is cached under [app], the
    function row under a key that starts with [app.views], and there is
    nothing under the key made with the handler's name. *)
Lemma function_key_uses_record_name :
  self_logger_name 0 first_done = "app" ∧
  dom (logger_cache first_done) = {["app"]} ∧
  dom (func_cache first_done) = {["app.views.f:1@/a.py"]} ∧
  func_cache first_done !! ("app" +:+ ".f:1@/a.py") = None.
Proof.
  split; [by vm_compute|].
  split; [apply set_eq; intros k; rewrite elem_of_dom, elem_of_singleton|split].
  - unfold first_done.
    assert (logger_cache (run_task 20 0 (emit 0 rec_one one_handler))
            = {["app" := LogLogger.mk 3 "app"]}) as -> by (by vm_compute).
    rewrite lookup_singleton_is_Some. naive_solver.
  - apply set_eq; intros k; rewrite elem_of_dom, elem_of_singleton.
    assert (func_cache first_done
            = {["app.views.f:1@/a.py" := LogFunction.mk 2 "app.views.f" 1 1]}) as ->
      by (by vm_compute).
    rewrite lookup_singleton_is_Some. naive_solver.
  - by vm_compute.
Qed.

(** C10 (as stated) fails: the entry of [rec_two] is created with three
    ids, those of its function, logger and host rows; the id of its source
    row is not among them. *)
Lemma entry_created_with_three_ids :
  LogSource.pk <$> src_cache second_done !! "/b.py" = Some 1 ∧
  filter (λ c, entry_ids c ≠ []) (ev_call <$> calls second_done)
    = [CEntryCreate 20 "two" 100 0 2 3 4] ∧
  entry_ids (CEntryCreate 20 "two" 100 0 2 3 4) = [2; 3; 4] ∧
  1 ∉ entry_ids (CEntryCreate 20 "two" 100 0 2 3 4).
Proof.
  split; [by vm_compute|]. split; [by vm_compute|]. split; [done|].
  simpl. rewrite !not_elem_of_cons. repeat split; try done. apply not_elem_of_nil.
Qed.

(** *** The theorems at work *)

Lemma failure_is_contained_witness :
  let s0 := for_records 0 [rec_one] connected in
  for_records 0 [rec_one; rec_bad; rec_two] connected
    = for_records 0 [rec_two] (async_emit 0 rec_bad s0) ∧
  reported (async_emit 0 rec_bad s0) = reported s0 ++ [(0%nat, rec_bad)] ∧
  ((0%nat, rec_two) ∈ reported (for_records 0 [rec_one; rec_bad; rec_two] connected) ∨
   ∃ function_id logger_id hostname_id,
     Ev 0 (entry_call rec_two function_id logger_id hostname_id) true
       ∈ calls (for_records 0 [rec_one; rec_bad; rec_two] connected)).
Proof.
  intros s0.
  destruct (failure_is_contained 0 [rec_one] rec_bad [rec_two] connected)
    as (H1 & H2 & H3 & _).
  split; [exact H1|]. split.
  - refine (proj2 (H2 (DataError "level") (async_emit_try 0 rec_bad s0).2 _)).
    by vm_compute.
  - apply H3. apply (bool_decide_unpack _). by vm_compute.
Defined.

Lemma single_drain_task_witness :
  (length (live_tasks 0 (emit 0 rec_one one_handler)) ≤ 1)%nat ∧
  tasks (emit 0 rec_one one_handler) = [mkTask 0 AtStart] ∧
  tasks (emits 0 [rec_two; rec_bad] (emit 0 rec_one one_handler)) = [mkTask 0 AtStart].
Proof.
  destruct (single_drain_task (W:=Mem.world) (Pool:=unit)) as (H1 & H2 & _).
  split.
  - apply H1. exists Mem.fresh.
    eapply rtc_l; [apply (step_init "app" "logs" None None "localhost" 5432 0)|].
    eapply rtc_l; [apply (step_emit 0 rec_one)|]. apply rtc_refl.
  - destruct (H2 one_handler 0%nat
                (mkHandler None "postgresql://localhost:5432/logs" "app" None None 0 0)
                rec_one [rec_two; rec_bad]) as (Ht & _ & Hrest).
    + by vm_compute.
    + done.
    + split; [exact Ht|]. rewrite Hrest. exact Ht.
Defined.

Lemma logger_key_and_function_key_witness :
  ∃ src func logger,
    src_cache (async_emit_try 0 rec_one connected).2 !! "/a.py" = Some src ∧
    func_cache (async_emit_try 0 rec_one connected).2
      !! ("app.views" +:+ "." +:+ "f" +:+ ":" +:+ pretty 1 +:+ "@" +:+ LogSource.path src)
      = Some func ∧
    logger_cache (async_emit_try 0 rec_one connected).2 !! self_logger_name 0 connected
      = Some logger ∧
    ∃ hostname_id,
      Ev 0 (entry_call rec_one (LogFunction.pk func) (LogLogger.pk logger) hostname_id) true
        ∈ calls (async_emit_try 0 rec_one connected).2.
Proof.
  apply (logger_key_and_function_key 0 rec_one connected tt). by vm_compute.
Defined.




Lemma record_without_tags_witness :
  no_tag_work connected (async_emit_try 0 rec_two connected).2.
Proof.
  refine (proj1 (record_without_tags 0 rec_two connected
                   (async_emit_try 0 rec_two connected).1
                   (async_emit_try 0 rec_two connected).2 _ _)).
  - done.
  - by destruct (async_emit_try 0 rec_two connected).
Defined.

(** * Further properties *)

(** ** The statements that the class methods execute *)

Section SyncModelStatements.
Context {DB Obj : Type}.
Variable execute : string → list value → M DB unit.
Variable fetchone : M DB (option rowdata).
Variable fetchall : M DB (list rowdata).
Variable make_where_statement : kwargs → string * list value.

Local Abbreviation the_select := (select_stmt make_where_statement).

Lemma load_recorded (c : SyncModel.cls Obj) kw d log :
  SyncModel.load (recorded_execute execute) (recorded fetchone) make_where_statement c kw (d, log)
  = let '(r, d') := SyncModel.load execute fetchone make_where_statement c kw d in
    (r, (d', log ++ [the_select c kw])).
Proof.
  unfold SyncModel.load, select_stmt.
  destruct (make_where_statement (SyncModel.serialize_data c kw)) as [w vs]. simpl.
  rewrite !bind_unfold. unfold recorded_execute. simpl.
  destruct (execute _ vs d) as [[e|[]] d1]; [done|].
  rewrite !bind_unfold. unfold recorded. simpl.
  destruct (fetchone d1) as [[e|[row|]] d2]; simpl; try done.
  rewrite !bind_unfold. unfold SyncModel.lift.
  by destruct (SyncModel.construct c (Some row)).
Qed.

Lemma create_recorded (c : SyncModel.cls Obj) b kw d log :
  SyncModel.create (recorded_execute execute) (recorded fetchone) c b kw (d, log)
  = let '(r, d') := SyncModel.create execute fetchone c b kw d in
    (r, (d', log ++ [insert_stmt c b kw])).
Proof.
  unfold SyncModel.create, insert_stmt. simpl.
  rewrite !bind_unfold. unfold recorded_execute. simpl.
  destruct (execute _ _ d) as [[e|[]] d1]; [done|].
  rewrite !bind_unfold. unfold recorded. simpl.
  destruct (fetchone d1) as [[e|row] d2]; simpl; try done.
  unfold SyncModel.lift. by destruct (SyncModel.construct c row).
Qed.

Lemma construct_all_rows {D} (c : SyncModel.cls Obj) rows (d : D) :
  SyncModel.construct_all c rows d = (construct_rows c rows, d).
Proof.
  induction rows as [|row rows IH]; [done|]. simpl.
  rewrite bind_unfold. unfold SyncModel.lift.
  destruct (SyncModel.construct c (Some row)) as [e|o]; [done|]. simpl.
  rewrite bind_unfold, IH. by destruct (construct_rows c rows).
Qed.

Lemma construct_rows_inr (c : SyncModel.cls Obj) rows os :
  construct_rows c rows = inr os ↔
  Forall2 (λ row o, SyncModel.construct c (Some row) = inr o) rows os.
Proof.
  revert os. induction rows as [|row rows IH]; intros os; simpl.
  - split; [intros [= <-]; constructor|by inversion 1].
  - destruct (SyncModel.construct c (Some row)) as [e|o] eqn:Hc.
    + split; [done|]. inversion 1; congruence.
    + destruct (construct_rows c rows) as [e|os'] eqn:Hr.
      * split; [done|]. inversion 1 as [|???? H1 H2]; subst.
        apply IH in H2. discriminate.
      * split.
        -- intros [= <-]. constructor; [done|]. by apply IH.
        -- inversion 1 as [|???? H1 H2]; subst. apply IH in H2. congruence.
Qed.

Lemma construct_rows_inl (c : SyncModel.cls Obj) rows e :
  construct_rows c rows = inl e →
  ∃ good row bad,
    rows = good ++ row :: bad ∧
    SyncModel.construct c (Some row) = inl e ∧
    Forall (λ r, is_inr (SyncModel.construct c (Some r)) = true) good.
Proof.
  induction rows as [|row rows IH]; simpl; [done|].
  destruct (SyncModel.construct c (Some row)) as [e'|o] eqn:Hc.
  - intros [= ->]. by exists [], row, rows.
  - destruct (construct_rows c rows) as [e'|os]; [|done].
    intros [= ->]. destruct (IH eq_refl) as (good & r & bad & -> & Hr & Hgood).
    exists (row :: good), r, bad. repeat split; [done|].
    constructor; [by rewrite Hc|done].
Qed.

(** X1: what [get_or_create] executes is the select of [load] and then,
    only when that select gave no row and raised nothing, the plain insert
    of [create]; it executes nothing else, whatever the cursor answers. *)
Theorem get_or_create_statements (c : SyncModel.cls Obj) kw d log :
  "ignore_conflicts" ∉ kw.*1 →
  SyncModel.get_or_create (recorded_execute execute) (recorded fetchone)
    make_where_statement c kw (d, log)
  = let '(r, d') := SyncModel.get_or_create execute fetchone make_where_statement c kw d in
    (r, (d', log ++ the_select c kw ::
                match SyncModel.load execute fetchone make_where_statement c kw d with
                | (inr None, _) => [insert_stmt c false kw]
                | _ => []
                end)).
Proof.
  intros Hk. rewrite !get_or_create_unfold by done. rewrite load_recorded.
  destruct (SyncModel.load execute fetchone make_where_statement c kw d)
    as [[e|[o|]] d1]; try done.
  rewrite create_recorded.
  destruct (SyncModel.create execute fetchone c false kw d1) as [r d2].
  by rewrite <- app_assoc.
Qed.

(** X2: [load_all] returns one object per fetched row, in the order of the
    rows, so none for no row; when the constructor refuses a row, the
    exception is that of the first such row and no list is returned. *)
Theorem load_all_rows (c : SyncModel.cls Obj) kw d d1 rows d2 :
  execute (the_select c kw).1 (the_select c kw).2 d = (inr tt, d1) →
  fetchall d1 = (inr rows, d2) →
  SyncModel.load_all execute fetchall make_where_statement c kw d = (construct_rows c rows, d2) ∧
  (∀ os, construct_rows c rows = inr os ↔
         Forall2 (λ row o, SyncModel.construct c (Some row) = inr o) rows os) ∧
  (∀ e, construct_rows c rows = inl e →
        ∃ good row bad,
          rows = good ++ row :: bad ∧ SyncModel.construct c (Some row) = inl e ∧
          Forall (λ r, is_inr (SyncModel.construct c (Some r)) = true) good).
Proof.
  intros Hex Hfetch. split; [|split].
  - unfold SyncModel.load_all. unfold select_stmt in Hex.
    destruct (make_where_statement (SyncModel.serialize_data c kw)) as [w vs]. simpl in *.
    rewrite bind_unfold, Hex, bind_unfold, Hfetch. apply construct_all_rows.
  - apply construct_rows_inr.
  - apply construct_rows_inl.
Qed.

(** X3: [load] and [load_all] execute one statement each, the same
    select with the same parameters; they differ in taking the first row
    or all rows of its result. *)
Theorem load_and_load_all_statement (c : SyncModel.cls Obj) kw d log :
  (SyncModel.load (recorded_execute execute) (recorded fetchone)
     make_where_statement c kw (d, log)).2.2 = log ++ [the_select c kw] ∧
  (SyncModel.load_all (recorded_execute execute) (recorded fetchall)
     make_where_statement c kw (d, log)).2.2 = log ++ [the_select c kw].
Proof.
  split.
  - rewrite load_recorded. by destruct (SyncModel.load _ _ _ _ _ _).
  - unfold SyncModel.load_all, select_stmt.
    destruct (make_where_statement (SyncModel.serialize_data c kw)) as [w vs]. simpl.
    rewrite bind_unfold. unfold recorded_execute. simpl.
    destruct (execute _ vs d) as [[e|[]] d1]; [done|].
    rewrite bind_unfold. unfold recorded. simpl.
    destruct (fetchall d1) as [[e|rows] d2]; [done|].
    by rewrite construct_all_rows.
Qed.

End SyncModelStatements.

(** ** [get_or_create] on a table of its own *)

Lemma string_app_assoc (x y z : string) : (x +:+ y) +:+ z = x +:+ (y +:+ z).
Proof.
  induction x as [|a x IH]; [done|].
  change (String a ((x +:+ y) +:+ z) = String a (x +:+ (y +:+ z))). by rewrite IH.
Qed.

Lemma contains_app_r (needle x y : string) :
  contains needle y = true → contains needle (x +:+ y) = true.
Proof.
  intros Hy. induction x as [|a x IH]; [done|].
  change (is_prefix needle (String a (x +:+ y)) || contains needle (x +:+ y) = true).
  rewrite IH. apply orb_true_r.
Qed.

Section PgFacts.
Context {Obj : Type}.
Implicit Types (c : SyncModel.cls Obj) (d : Pg.db).

Local Abbreviation pg_get_or_create :=
  (SyncModel.get_or_create (Obj:=Obj) Pg.execute Pg.fetchone Pg.make_where_statement).

Lemma Pg_execute_select c w values d :
  Pg.execute (SyncModel.select_sql c w) values d =
  (inr tt, Pg.mk (Pg.rows (Pg.commit_rivals d))
             (filter (λ row, Pg.matches values row = true) (Pg.rows (Pg.commit_rivals d)))
             (Pg.rivals (Pg.commit_rivals d)) (Pg.next_pk d)).
Proof. reflexivity. Qed.

Lemma Pg_execute_insert c ser values d :
  existsb (Pg.matches values) (Pg.rows (Pg.commit_rivals d)) = false →
  Pg.execute (SyncModel.create_sql c false ser) values d =
  (inr tt, Pg.mk (Pg.rows (Pg.commit_rivals d) ++ [VInt (Pg.next_pk d) :: values])
             [VInt (Pg.next_pk d) :: values]
             (Pg.rivals (Pg.commit_rivals d)) (Pg.next_pk d + 1)).
Proof.
  intros Hno. unfold Pg.execute.
  change (is_prefix "SELECT" (SyncModel.create_sql c false ser)) with false.
  change (contains "INSERT INTO" (SyncModel.create_sql c false ser)) with true.
  cbv iota. by rewrite Hno.
Qed.

Lemma filter_nil_existsb {A} (f : A → bool) (l : list A) :
  filter (λ x, f x = true) l = [] ↔ existsb f l = false.
Proof.
  induction l as [|x l IH]; [done|]. rewrite filter_cons. simpl.
  case_decide as Hx; [by rewrite Hx|].
  apply not_true_is_false in Hx. by rewrite Hx.
Qed.

Lemma commit_no_rivals d : Pg.rivals d = [] → Pg.commit_rivals d = d.
Proof. destruct d as [rows cur riv nxt]. simpl. intros ->. unfold Pg.commit_rivals. simpl.
  by rewrite app_nil_r. Qed.

Lemma Pg_load c kw d :
  Pg.rivals d = [] →
  SyncModel.load Pg.execute Pg.fetchone Pg.make_where_statement c kw d =
  match filter (λ row, Pg.matches (SyncModel.serialize_data c kw).*2 row = true) (Pg.rows d) with
  | [] => (inr None, Pg.mk (Pg.rows d) [] [] (Pg.next_pk d))
  | row :: rest =>
      match SyncModel.construct c (Some row) with
      | inl e => (inl e, Pg.mk (Pg.rows d) rest [] (Pg.next_pk d))
      | inr o => (inr (Some o), Pg.mk (Pg.rows d) rest [] (Pg.next_pk d))
      end
  end.
Proof.
  intros Hriv. unfold SyncModel.load, Pg.make_where_statement. simpl.
  rewrite bind_unfold, Pg_execute_select, (commit_no_rivals d Hriv), bind_unfold.
  unfold Pg.fetchone. simpl. rewrite Hriv.
  destruct (filter _ (Pg.rows d)) as [|row rest]; [done|].
  rewrite bind_unfold. unfold SyncModel.lift.
  by destruct (SyncModel.construct c (Some row)).
Qed.

Lemma Pg_create_fresh c kw d :
  Pg.rivals d = [] →
  filter (λ row, Pg.matches (SyncModel.serialize_data c kw).*2 row = true) (Pg.rows d) = [] →
  SyncModel.create Pg.execute Pg.fetchone c false kw d =
  let row := VInt (Pg.next_pk d) :: (SyncModel.serialize_data c kw).*2 in
  (SyncModel.construct c (Some row), Pg.mk (Pg.rows d ++ [row]) [] [] (Pg.next_pk d + 1)).
Proof.
  intros Hriv Hf. unfold SyncModel.create. simpl.
  rewrite bind_unfold, Pg_execute_insert, (commit_no_rivals d Hriv), bind_unfold;
    [|rewrite (commit_no_rivals d Hriv); by apply filter_nil_existsb].
  unfold Pg.fetchone. simpl. rewrite Hriv. unfold SyncModel.lift.
  by destruct (SyncModel.construct c _).
Qed.

(** X4: on a table that no other session writes to, [get_or_create]
    called again with the same keywords returns the same object and leaves
    the table as the first call left it; the first call added one row if
    no row matched, and none otherwise. *)
Theorem get_or_create_twice c kw d o d1 :
  "ignore_conflicts" ∉ kw.*1 →
  Pg.rivals d = [] →
  pg_get_or_create c kw d = (inr o, d1) →
  let hits d := filter (λ row, Pg.matches (SyncModel.serialize_data c kw).*2 row = true)
                  (Pg.rows d) in
  pg_get_or_create c kw d1 = (inr o, d1) ∧
  length (hits d1) = Nat.max 1 (length (hits d)).
Proof.
  intros Hk Hriv. rewrite !get_or_create_unfold by done.
  rewrite (Pg_load c kw d Hriv).
  destruct (filter _ (Pg.rows d)) as [|row rest] eqn:Hf.
  - rewrite Pg_create_fresh by done. simpl.
    destruct (SyncModel.construct c _) as [e|o'] eqn:Hc; [done|].
    intros [= <- <-]. simpl.
    rewrite Pg_load by done. simpl. rewrite filter_app, Hf. simpl.
    rewrite filter_cons, decide_True, filter_nil
      by (unfold Pg.matches; by rewrite bool_decide_eq_true_2).
    by rewrite Hc.
  - destruct (SyncModel.construct c (Some row)) as [e|o'] eqn:Hc; [done|].
    intros [= <- <-]. simpl.
    rewrite Pg_load by done. simpl. rewrite Hf, Hc. split; [done|simpl; lia].
Qed.

Lemma create_sql_on_conflict c ser :
  contains "ON CONFLICT DO NOTHING" (SyncModel.create_sql c true ser) = true.
Proof.
  unfold SyncModel.create_sql. rewrite string_app_assoc.
  by apply contains_app_r.
Qed.

(** X5: with [ignore_conflicts=True], a [create] that meets a row with
    the same values raises no uniqueness violation and leaves the table as
    it is, but it does not come back with that row: the statement returns
    no row, and the object is built from [rowdata=None]. *)
Theorem create_ignoring_conflict c kw d row :
  Pg.rivals d = [] →
  row ∈ Pg.rows d →
  Pg.matches (SyncModel.serialize_data c kw).*2 row = true →
  SyncModel.create Pg.execute Pg.fetchone c true kw d =
  (SyncModel.construct c None, Pg.mk (Pg.rows d) [] [] (Pg.next_pk d)).
Proof.
  intros Hriv Hin Hm. unfold SyncModel.create. simpl.
  rewrite bind_unfold. unfold Pg.execute.
  change (is_prefix "SELECT" (SyncModel.create_sql c true (SyncModel.serialize_data c kw)))
    with false.
  change (contains "INSERT INTO" (SyncModel.create_sql c true (SyncModel.serialize_data c kw)))
    with true.
  cbv iota. rewrite create_sql_on_conflict, (commit_no_rivals d Hriv).
  assert (existsb (Pg.matches (SyncModel.serialize_data c kw).*2) (Pg.rows d) = true) as ->.
  { apply existsb_exists. exists row. split; [by apply list_elem_of_In|done]. }
  rewrite bind_unfold. unfold Pg.fetchone. simpl. rewrite Hriv.
  unfold SyncModel.lift. by destruct (SyncModel.construct c None).
Qed.

End PgFacts.

(** ** The connection string *)

(** X6: [__init__] puts user and password into the connection string as
    they are, so that the string does not tell a user name with a colon in
    it from a user name and a password. *)
Theorem db_config_not_escaped db_name user password db_host db_port :
  make_db_config db_name (Some (user +:+ ":" +:+ password)) None db_host db_port =
  make_db_config db_name (Some user) (Some password) db_host db_port.
Proof.
  unfold make_db_config.
  rewrite (string_app_assoc user), (string_app_assoc ":" password).
  done.
Qed.

(** *** The further theorems at work *)

Lemma get_or_create_statements_witness :
  (SyncModel.get_or_create (recorded_execute Pg.execute) (recorded Pg.fetchone)
     Pg.make_where_statement Pg.LogHost_cls web01 (race_db, [])).2.2
  = [select_stmt Pg.make_where_statement Pg.LogHost_cls web01;
     insert_stmt Pg.LogHost_cls false web01].
Proof.
  rewrite (get_or_create_statements Pg.execute Pg.fetchone Pg.make_where_statement
             Pg.LogHost_cls web01 race_db [])
    by (apply (bool_decide_unpack _); by vm_compute).
  by vm_compute.
Defined.

Lemma load_all_rows_witness :
  SyncModel.load_all Pg.execute Pg.fetchall Pg.make_where_statement Pg.LogHost_cls web01
    one_host_db
  = (inr [LogHost.mk 7 "web01"], one_host_db).
Proof.
  destruct (load_all_rows Pg.execute Pg.fetchall Pg.make_where_statement Pg.LogHost_cls web01
              one_host_db (Pg.mk [[VInt 7; VStr "web01"]] [[VInt 7; VStr "web01"]] [] 8)
              [[VInt 7; VStr "web01"]] one_host_db) as [H _].
  - by vm_compute.
  - by vm_compute.
  - exact H.
Defined.

Lemma get_or_create_twice_witness :
  let d1 := Pg.mk [[VInt 1; VStr "web01"]] [] [] 2 in
  Pg.get_or_create Pg.LogHost_cls web01 d1 = (inr (LogHost.mk 1 "web01"), d1).
Proof.
  intros d1.
  refine (proj1 (get_or_create_twice Pg.LogHost_cls web01 empty_db
                   (LogHost.mk 1 "web01") d1 _ _ _)).
  - apply (bool_decide_unpack _). by vm_compute.
  - done.
  - by vm_compute.
Defined.

Lemma create_ignoring_conflict_witness :
  Pg.create Pg.LogHost_cls true web01 one_host_db = (inl (TypeError "rowdata"), one_host_db).
Proof.
  refine (create_ignoring_conflict Pg.LogHost_cls web01 one_host_db
            [VInt 7; VStr "web01"] _ _ _).
  - done.
  - apply (bool_decide_unpack _). by vm_compute.
  - by vm_compute.
Defined.

Lemma emits_fifo_witness :
  self_queue 0 (emits 0 [rec_one; rec_two] one_handler) = [rec_one; rec_two].
Proof.
  refine (proj1 (emits_fifo 0 [rec_one; rec_two] one_handler
                   (mkHandler None "postgresql://localhost:5432/logs" "app" None None 0 0) _)).
  by vm_compute.
Defined.

Lemma resolve_tags_rows_witness :
  ∃ rows,
    [LogTag.mk 5 "x"; LogTag.mk 6 "y"; LogTag.mk 5 "x"] = [] ++ rows ∧
    Forall2 (λ n t, tag_cache (resolve_tags 0 ["x"; "y"; "x"] [] connected).2 !! n = Some t)
      ["x"; "y"; "x"] rows.
Proof.
  apply (resolve_tags_rows 0 ["x"; "y"; "x"] [] connected). by vm_compute.
Defined.

Lemma cached_record_two_calls_witness :
  async_emit_try 0 rec_bad connected =
  (entry ← create_entry 0 rec_bad (LogFunction.mk 2 "app.f" 1 1) (LogLogger.mk 3 "app")
             (LogHost.mk 4 "web01");
   add_tags 0 entry []) connected.
Proof.
  refine (proj1 (cached_record_two_calls 0 rec_bad connected (LogSource.mk 1 "/a.py")
                   (LogFunction.mk 2 "app.f" 1 1) (LogLogger.mk 3 "app")
                   (LogHost.mk 4 "web01") [] _ _ _ _ _)).
  - by vm_compute.
  - by vm_compute.
  - by vm_compute.
  - by vm_compute.
  - constructor.
Defined.

Lemma failed_record_keeps_rows_witness :
  reported (async_emit 0 rec_bad first_done) = reported first_done ++ [(0%nat, rec_bad)] ∧
  src_cache (async_emit 0 rec_bad first_done) !! "/a.py" = Some (LogSource.mk 1 "/a.py") ∧
  caches_kept first_done (async_emit 0 rec_bad first_done).
Proof.
  refine (failed_record_keeps_rows 0 rec_bad first_done (DataError "level")
            (async_emit_try 0 rec_bad first_done).2 (LogSource.mk 1 "/a.py") first_done _ _).
  - by vm_compute.
  - by vm_compute.
Defined.

Lemma class_queue_only_grows_witness :
  cls_queue one_handler `prefix_of` cls_queue (emit 0 rec_one one_handler).
Proof.
  apply class_queue_only_grows. apply rtc_once, step_emit.
Defined.

Lemma instance_attributes_kept_witness :
  ∃ h', handlers at_for !! 0%nat = Some h' ∧
        kept (mkHandler None "postgresql://localhost:5432/logs" "app" None None 0 0) h'.
Proof.
  apply (instance_attributes_kept one_handler at_for 0).
  - unfold at_for. simpl.
    eapply rtc_l; [apply (step_emit 0 rec_one)|].
    do 3 (eapply rtc_l; [apply (step_task 0)|]). apply rtc_refl.
  - by vm_compute.
Defined.

Lemma connects_once_witness : connected_once at_for.
Proof.
  apply connects_once. exists Mem.fresh. unfold at_for. simpl.
  eapply rtc_l; [apply (step_init "app" "logs" None None "localhost" 5432 0)|].
  eapply rtc_l; [apply (step_emit 0 rec_one)|].
  do 3 (eapply rtc_l; [apply (step_task 0)|]). apply rtc_refl.
Defined.

Lemma for_loop_is_for_records_witness :
  Nat.iter (S (length (drop 0 (cls_queue at_for)))) (log_emitter_step 0) at_for =
  set_pc 0 AtWhile (for_records 0 (drop 0 (cls_queue at_for)) at_for).
Proof.
  apply (for_loop_is_for_records 0 0 (BShared 0) at_for). by vm_compute.
Defined.

Lemma task_drains_and_ends_witness :
  let s' := Nat.iter 6 (log_emitter_step 0) at_while in
  tasks s' !! 0%nat = Some (mkTask 0 Returned) ∧
  self_emitter 0 s' = None ∧
  self_queue 0 s' = [] ∧
  same_outside (for_records 0 [rec_one] at_while) s'.
Proof.
  apply (task_drains_and_ends 0 0 at_while
           (mkHandler (Some tt) "postgresql://localhost:5432/logs" "app" None (Some 0%nat) 0 0)).
  - by vm_compute.
  - by vm_compute.
Defined.

Lemma push_and_drain_witness :
  let s' := Nat.iter 7 (log_emitter_step 1) (emit 0 rec_two first_done) in
  tasks s' !! 1%nat = Some (mkTask 0 Returned) ∧
  self_emitter 0 s' = None ∧
  self_queue 0 s' = [] ∧
  same_outside (async_emit 0 rec_two first_done) s'.
Proof.
  apply (push_and_drain 0 rec_two first_done
           (mkHandler (Some tt) "postgresql://localhost:5432/logs" "app" (Some []) None 0 0) tt).
  - by vm_compute.
  - done.
  - done.
  - by vm_compute.
Defined.
